(** * scroll-animation.ts: viewport visibility watcher

    A shallow embedding of [src/lib/scroll-animation.ts] and the proofs of
    its specification.

    The module is a thin layer over three host capabilities: the global
    scope ([typeof window], [typeof IntersectionObserver]), the document
    ([document.querySelectorAll], [element.classList.add]) and the
    [IntersectionObserver] objects ([new], [observe], [unobserve]).  The
    host is an explicit state ([Host]); the module's functions are
    computations in a state-and-exception monad ([JS]) over it.  Every host
    call is also appended to a log ([calls]), so that statements such as
    "the selector is never evaluated" or "no unobserve is issued" can be
    phrased on what the code did, not only on the state it left.

    The host capabilities are modelled by their contract: a class list is
    an ordered set of tokens, an observer holds a set of targets, the
    selector engine either matches or raises.  The platform validates what
    the module hands to it, and the module validates nothing itself: the
    observer's constructor raises on a threshold that is not a finite
    number in [0, 1] and on a root margin its parser rejects, and
    [classList.add] raises on an empty token and on a token with
    whitespace.  Which margin strings parse differs between platforms and
    is, like selector matching, a capability of the host.  [window] stands
    for the browsing context as a whole, document included, as the
    module's own check does.  A JavaScript number is a binary64 float. *)

From Stdlib Require Import PrimFloat.
From stdpp Require Import base option list gmap strings fin_maps.

Local Set Warnings "-inexact-float".
Local Open Scope string_scope.
Local Open Scope list_scope.

(** ** Data model *)

(** DOM elements and observer instances are identified by reference. *)
Abbreviation Element := nat (only parsing).
Abbreviation ObserverId := nat (only parsing).

(** [interface ScrollAnimationOptions]: every field is optional; [None] is
    the field being absent (or [undefined]). *)
Record ScrollAnimationOptions := {
  opt_threshold : option float;
  opt_rootMargin : option string;
  opt_visibleClass : option string;
  opt_once : option bool
}.

(** The object literal [{}]. *)
Definition empty_options : ScrollAnimationOptions :=
  {| opt_threshold := None; opt_rootMargin := None;
     opt_visibleClass := None; opt_once := None |}.

(** The four constants bound by the destructuring pattern of
    [observeScrollAnimations]. *)
Record Bindings := {
  threshold : float;
  rootMargin : string;
  visibleClass : string;
  once : bool
}.

(** [IntersectionObserverInit], as the module builds it. *)
Record IntersectionObserverInit := {
  init_threshold : float;
  init_rootMargin : string
}.

(** The two fields of [IntersectionObserverEntry] the callback reads. *)
Record IntersectionObserverEntry := {
  target : Element;
  isIntersecting : bool
}.

(** The arrow function given to [new IntersectionObserver], as a closure:
    it captures [visibleClass], [once] and the constant [observer] it is
    being assigned to. *)
Record Closure := {
  cap_visibleClass : string;
  cap_once : bool;
  cap_observer : ObserverId
}.

(** An [IntersectionObserver] instance: its options, its callback and its
    observation targets, in registration order. *)
Record Observer := {
  io_init : IntersectionObserverInit;
  io_callback : Closure;
  io_targets : list Element
}.

(** The conditions the platform raises: [SyntaxError] by the selector
    engine on a malformed selector, by the margin parser on a malformed
    root margin and by a token list on the empty token;
    [InvalidCharacterError] by a token list on a token with whitespace;
    [RangeError] and [TypeError] by the observer's constructor on a
    threshold out of range, or not a finite number. *)
Inductive DOMException :=
| SyntaxError (text : string)
| InvalidCharacterError (token : string)
| RangeError
| TypeError.

(** How a computation ends: with a value, or by raising. *)
Inductive Completion (A : Type) :=
| Normal (a : A)
| Throw (e : DOMException).
Arguments Normal {A} a.
Arguments Throw {A} e.

(** The host calls the module issues.  A construction is recorded with the
    observer it returned, or as having raised; a [classList.add] is
    recorded whether it returns or raises. *)
Inductive Call :=
| CallNew (o : ObserverId) (init : IntersectionObserverInit)
| CallNewRaised (init : IntersectionObserverInit)
| CallQuerySelectorAll (selector : string)
| CallObserve (o : ObserverId) (el : Element)
| CallUnobserve (o : ObserverId) (el : Element)
| CallClassListAdd (el : Element) (cls : string).

(** The host: global scope, document, observer instances, call log.
    [selector_engine] is the platform's selector matching against the
    document, given the current class lists (a selector may test classes);
    it raises on a malformed selector.  [rootMargin_parses] is the
    platform's parser of root margins, as a test. *)
Record Host := {
  window_defined : bool;
  IntersectionObserver_defined : bool;
  selector_engine : gmap Element (list string) -> string -> Completion (list Element);
  rootMargin_parses : string -> bool;
  classLists : gmap Element (list string);
  observers : list Observer;
  calls : list Call
}.

Definition set_classLists (h : Host) (m : gmap Element (list string)) : Host :=
  {| window_defined := window_defined h;
     IntersectionObserver_defined := IntersectionObserver_defined h;
     selector_engine := selector_engine h;
     rootMargin_parses := rootMargin_parses h;
     classLists := m;
     observers := observers h;
     calls := calls h |}.

Definition set_observers (h : Host) (os : list Observer) : Host :=
  {| window_defined := window_defined h;
     IntersectionObserver_defined := IntersectionObserver_defined h;
     selector_engine := selector_engine h;
     rootMargin_parses := rootMargin_parses h;
     classLists := classLists h;
     observers := os;
     calls := calls h |}.

Definition log (h : Host) (c : Call) : Host :=
  {| window_defined := window_defined h;
     IntersectionObserver_defined := IntersectionObserver_defined h;
     selector_engine := selector_engine h;
     rootMargin_parses := rootMargin_parses h;
     classLists := classLists h;
     observers := observers h;
     calls := calls h ++ [c] |}.

(** [el.classList] and [observer]'s targets, read off the host. *)
Definition classList_of (h : Host) (el : Element) : list string :=
  default [] (classLists h !! el).

Definition targets_of (h : Host) (o : ObserverId) : list Element :=
  from_option io_targets [] (observers h !! o).

(** ** The computation monad *)

Definition JS (A : Type) : Type := Host -> Host * Completion A.

Definition ret {A} (a : A) : JS A := fun h => (h, Normal a).

Definition bind {A B} (m : JS A) (k : A -> JS B) : JS B :=
  fun h =>
    match m h with
    | (h', Normal a) => k a h'
    | (h', Throw e) => (h', Throw e)
    end.

Declare Scope js_scope.
Delimit Scope js_scope with js.
Notation "x <- m ;; k" := (bind m (fun x => k))
  (at level 100, m at next level, right associativity) : js_scope.
Notation "m ;;; k" := (bind m (fun _ => k))
  (at level 100, right associativity) : js_scope.
Local Open Scope js_scope.

(** [Array.prototype.forEach] / [NodeList.prototype.forEach]. *)
Fixpoint forEach {A} (f : A -> JS unit) (l : list A) : JS unit :=
  match l with
  | [] => ret tt
  | x :: l' => f x ;;; forEach f l'
  end.

(** [Array.prototype.map] with an effectful function: left to right, and a
    raise abandons the rest. *)
Fixpoint array_map {A B} (f : A -> JS B) (l : list A) : JS (list B) :=
  match l with
  | [] => ret []
  | x :: l' => y <- f x ;; ys <- array_map f l' ;; ret (y :: ys)
  end.

(** ** Host capabilities *)

(** [typeof window === 'undefined'] and
    [typeof IntersectionObserver === 'undefined']: reads of the global
    scope, without effect. *)
Definition typeof_window_undefined : JS bool :=
  fun h => (h, Normal (negb (window_defined h))).

Definition typeof_IntersectionObserver_undefined : JS bool :=
  fun h => (h, Normal (negb (IntersectionObserver_defined h))).

(** The constructor's validation of its options, in the platform's order:
    the threshold must convert to a finite number, the root margin must
    parse, the threshold must lie in [0, 1]. *)
Definition init_error (h : Host) (init : IntersectionObserverInit)
    : option DOMException :=
  let t := init_threshold init in
  if PrimFloat.is_nan t || PrimFloat.is_infinity t then Some TypeError
  else if negb (rootMargin_parses h (init_rootMargin init))
  then Some (SyntaxError (init_rootMargin init))
  else if PrimFloat.leb 0%float t && PrimFloat.leb t 1%float then None
  else Some RangeError.

(** [new IntersectionObserver(callback, init)]: raises if the options are
    rejected; otherwise a fresh instance without targets.  The callback is
    given as a function of the instance, since the arrow function refers to
    the constant being initialised. *)
Definition new_IntersectionObserver
    (callback : ObserverId -> Closure) (init : IntersectionObserverInit)
    : JS ObserverId :=
  fun h =>
    match init_error h init with
    | Some e => (log h (CallNewRaised init), Throw e)
    | None =>
        let o := length (observers h) in
        let ob := {| io_init := init; io_callback := callback o; io_targets := [] |} in
        (log (set_observers h (observers h ++ [ob])) (CallNew o init), Normal o)
    end.

(** [document.querySelectorAll(selector)]. *)
Definition document_querySelectorAll (selector : string) : JS (list Element) :=
  fun h =>
    (log h (CallQuerySelectorAll selector),
     selector_engine h (classLists h) selector).

(** Set-add on an ordered token list. *)
Definition token_add (cls : string) (l : list string) : list string :=
  if decide (cls ∈ l) then l else l ++ [cls].

(** ASCII whitespace: tab, line feed, form feed, carriage return, space. *)
Definition is_ascii_whitespace (a : Ascii.ascii) : bool :=
  let n := Ascii.nat_of_ascii a in
  Nat.eqb n 9 || Nat.eqb n 10 || Nat.eqb n 12 || Nat.eqb n 13 || Nat.eqb n 32.

(** The token list's validation of a token. *)
Definition token_error (cls : string) : option DOMException :=
  if decide (cls = "") then Some (SyntaxError cls)
  else if existsb is_ascii_whitespace (String.list_ascii_of_string cls)
  then Some (InvalidCharacterError cls)
  else None.

(** [el.classList.add(cls)]: raises on an invalid token, leaving the list
    as it is; otherwise a set-add. *)
Definition classList_add (el : Element) (cls : string) : JS unit :=
  fun h =>
    match token_error cls with
    | Some e => (log h (CallClassListAdd el cls), Throw e)
    | None =>
        (log (set_classLists h
                (<[el := token_add cls (classList_of h el)]> (classLists h)))
             (CallClassListAdd el cls),
         Normal tt)
    end.

Definition add_target (el : Element) (ob : Observer) : Observer :=
  {| io_init := io_init ob; io_callback := io_callback ob;
     io_targets := if decide (el ∈ io_targets ob) then io_targets ob
                   else io_targets ob ++ [el] |}.

Definition remove_target (el : Element) (ob : Observer) : Observer :=
  {| io_init := io_init ob; io_callback := io_callback ob;
     io_targets := filter (λ x, x ≠ el) (io_targets ob) |}.

(** [observer.observe(el)]: registers [el] unless already registered. *)
Definition observe (o : ObserverId) (el : Element) : JS unit :=
  fun h =>
    (log (set_observers h (alter (add_target el) o (observers h))) (CallObserve o el),
     Normal tt).

(** [observer.unobserve(el)]: removes [el] from the targets. *)
Definition unobserve (o : ObserverId) (el : Element) : JS unit :=
  fun h =>
    (log (set_observers h (alter (remove_target el) o (observers h))) (CallUnobserve o el),
     Normal tt).

(** ** The module *)

(** The destructuring [const { threshold = 0.2, ... } = options] with the
    parameter default [options = {}]. *)
Definition destructure (options : option ScrollAnimationOptions) : Bindings :=
  let options := default empty_options options in
  {| threshold := default 0.2%float (opt_threshold options);
     rootMargin := default "0px 0px -50px 0px" (opt_rootMargin options);
     visibleClass := default "visible" (opt_visibleClass options);
     once := default true (opt_once options) |}.

(** The body of the arrow function [(entries) => { entries.forEach(...) }],
    for one entry and for the batch. *)
Definition on_entry (c : Closure) (entry : IntersectionObserverEntry) : JS unit :=
  if isIntersecting entry then
    classList_add (target entry) (cap_visibleClass c) ;;;
    if cap_once c then unobserve (cap_observer c) (target entry)
    else ret tt
  else ret tt.

Definition callback (c : Closure) (entries : list IntersectionObserverEntry) : JS unit :=
  forEach (on_entry c) entries.

Definition observeScrollAnimations
    (selector : string) (options : option ScrollAnimationOptions)
    : JS (option ObserverId) :=
  let b := destructure options in
  no_window <- typeof_window_undefined ;;
  no_io <- typeof_IntersectionObserver_undefined ;;
  if no_window || no_io then ret None
  else
    let observerOptions :=
      {| init_threshold := threshold b; init_rootMargin := rootMargin b |} in
    observer <- new_IntersectionObserver
      (fun observer =>
         {| cap_visibleClass := visibleClass b; cap_once := once b;
            cap_observer := observer |})
      observerOptions ;;
    elements <- document_querySelectorAll selector ;;
    forEach (fun el => observe observer el) elements ;;;
    ret (Some observer).

(** [(observer) => observer !== null], as [Array.prototype.filter] uses it. *)
Definition filter_non_null (results : list (option ObserverId)) : list ObserverId :=
  omap id results.

Record Config := {
  selector : string;
  options : option ScrollAnimationOptions
}.

Definition observeMultiple (configs : list Config) : JS (list ObserverId) :=
  results <- array_map (fun c => observeScrollAnimations (selector c) (options c)) configs ;;
  ret (filter_non_null results).

(** ** Delivery of observations by the platform *)

(** The platform notifies an observer only about its current targets, and
    only when there is something to report; it then runs the observer's
    callback on the batch. *)
Definition delivered (h : Host) (o : ObserverId)
    (records : list IntersectionObserverEntry) : list IntersectionObserverEntry :=
  filter (λ e, target e ∈ targets_of h o) records.

Definition notify (o : ObserverId) (records : list IntersectionObserverEntry) : JS unit :=
  fun h =>
    match observers h !! o with
    | None => (h, Normal tt)
    | Some ob =>
        match delivered h o records with
        | [] => (h, Normal tt)
        | entries => callback (io_callback ob) entries h
        end
    end.

(** A sequence of observation ticks, each for some observer. *)
Definition ticks (ts : list (ObserverId * list IntersectionObserverEntry)) : JS unit :=
  forEach (fun t => notify t.1 t.2) ts.

(** ** Example hosts

    A browser whose document has two [.fade] elements (1 and 2) and whose
    selector engine rejects ["["]; and a server-side renderer without
    [window] and without [IntersectionObserver]. *)

Definition demo_engine (m : gmap Element (list string)) (s : string)
    : Completion (list Element) :=
  if decide (s = "[") then Throw (SyntaxError s)
  else if decide (s = ".fade") then Normal [1; 2]
  else Normal [].

(** The margin parser of the example hosts: a few margins in pixels. *)
Definition demo_margins (s : string) : bool :=
  bool_decide (s ∈ ["0px 0px -50px 0px"; "0px 0px -100px 0px"; "0px"; ""]).

Definition browser : Host :=
  {| window_defined := true; IntersectionObserver_defined := true;
     selector_engine := demo_engine; rootMargin_parses := demo_margins;
     classLists := ∅;
     observers := []; calls := [] |}.

Definition server : Host :=
  {| window_defined := false; IntersectionObserver_defined := false;
     selector_engine := demo_engine; rootMargin_parses := demo_margins;
     classLists := ∅;
     observers := []; calls := [] |}.

(** An entry without options; an intersecting and a non-intersecting
    entry for an element. *)
Definition cfg (s : string) : Config := {| selector := s; options := None |}.

Definition hit (el : Element) : IntersectionObserverEntry :=
  {| target := el; isIntersecting := true |}.

Definition miss (el : Element) : IntersectionObserverEntry :=
  {| target := el; isIntersecting := false |}.

(** Options that give a custom class and leave everything else out. *)
Definition shown_only : ScrollAnimationOptions :=
  {| opt_threshold := None; opt_rootMargin := None;
     opt_visibleClass := Some "shown"; opt_once := None |}.

(** Options of a repeating watcher ([once: false]). *)
Definition repeating : ScrollAnimationOptions :=
  {| opt_threshold := None; opt_rootMargin := None;
     opt_visibleClass := None; opt_once := Some false |}.

(** The browser after a repeating watcher on its two [.fade] elements was
    made and a first tick reported element 1 intersecting. *)
Definition after_first_tick : Host :=
  (ticks [(0, [hit 1])] (observeScrollAnimations ".fade" (Some repeating) browser).1).1.

(** Options with a class that is not a single token, once and repeating;
    options with a threshold out of range. *)
Definition spaced_class : ScrollAnimationOptions :=
  {| opt_threshold := None; opt_rootMargin := None;
     opt_visibleClass := Some "a b"; opt_once := None |}.

Definition spaced_repeating : ScrollAnimationOptions :=
  {| opt_threshold := None; opt_rootMargin := None;
     opt_visibleClass := Some "a b"; opt_once := Some false |}.

Definition out_of_range : ScrollAnimationOptions :=
  {| opt_threshold := Some 2%float; opt_rootMargin := None;
     opt_visibleClass := None; opt_once := None |}.

(** Three entries, the middle one with a selector the engine rejects. *)
Definition entries_with_malformed : list Config :=
  [cfg ".fade"; cfg "["; cfg ".fade"].

(** Three entries for the simulation of the unsupported condition on the
    calls for [".absent"], the middle one. *)
Definition three_entries : list Config :=
  [cfg ".fade"; cfg ".absent";
   {| selector := ".fade"; options := Some shown_only |}].

(** Two entries with accepted selectors; the second matches nothing. *)
Definition two_entries : list Config :=
  [cfg ".fade"; {| selector := ".absent"; options := Some shown_only |}].

(** ** Vocabulary of the statements *)

(** The environment check of [observeScrollAnimations] passes. *)
Definition supported (h : Host) : bool :=
  window_defined h && IntersectionObserver_defined h.

(** The calls issued between two hosts of one run. *)
Definition issued (h h' : Host) : list Call :=
  drop (length (calls h)) (calls h').

(** The calls one entry makes the callback issue. *)
Definition entry_calls (c : Closure) (e : IntersectionObserverEntry) : list Call :=
  if isIntersecting e then
    CallClassListAdd (target e) (cap_visibleClass c) ::
    (if cap_once c then [CallUnobserve (cap_observer c) (target e)] else [])
  else [].

(** The closure [observeScrollAnimations] builds for observer [o]. *)
Definition closure_of (b : Bindings) (o : ObserverId) : Closure :=
  {| cap_visibleClass := visibleClass b; cap_once := once b; cap_observer := o |}.

(** The [observerOptions] it builds. *)
Definition init_of (b : Bindings) : IntersectionObserverInit :=
  {| init_threshold := threshold b; init_rootMargin := rootMargin b |}.

(** [o] is, in [h], a watcher made by [observeScrollAnimations] from the
    bindings [b]. *)
Definition watcher (h : Host) (o : ObserverId) (b : Bindings) : Prop :=
  ∃ ob, observers h !! o = Some ob ∧ io_callback ob = closure_of b o
        ∧ io_init ob = init_of b.

(** What can happen to a host: the module is called, or the platform
    delivers an observation tick to some observer. *)
Inductive step : Host -> Host -> Prop :=
| step_watch sel opts h :
    step h (observeScrollAnimations sel opts h).1
| step_notify o records h :
    step h (notify o records h).1.

(** Observers are never dropped or re-configured, and gain no target. *)
Definition observers_shrink (h h' : Host) : Prop :=
  ∀ o ob, observers h !! o = Some ob →
    ∃ ob', observers h' !! o = Some ob'
           ∧ io_callback ob' = io_callback ob
           ∧ io_init ob' = io_init ob
           ∧ io_targets ob' ⊆ io_targets ob.

(** Class lists only grow. *)
Definition classes_grow (h h' : Host) : Prop :=
  ∀ el cls, cls ∈ classList_of h el → cls ∈ classList_of h' el.

(** The targets of the intersecting entries of a batch. *)
Definition hit_targets (entries : list IntersectionObserverEntry) : list Element :=
  target <$> filter (λ e, isIntersecting e = true) entries.

(** The targets after registering [els] one by one. *)
Definition add_targets (els : list Element) (ob : Observer) : Observer :=
  foldl (λ ob el, add_target el ob) ob els.

(** The host left by a call in a supported environment whose selector
    matched [els]. *)
Definition watched (h : Host) (sel : string) (b : Bindings) (els : list Element) : Host :=
  let o := length (observers h) in
  {| window_defined := window_defined h;
     IntersectionObserver_defined := IntersectionObserver_defined h;
     selector_engine := selector_engine h;
     rootMargin_parses := rootMargin_parses h;
     classLists := classLists h;
     observers := observers h ++
       [add_targets els
          {| io_init := init_of b; io_callback := closure_of b o; io_targets := [] |}];
     calls := calls h ++
       CallNew o (init_of b) :: CallQuerySelectorAll sel :: (CallObserve o <$> els) |}.

(** The defaults of the destructuring pattern. *)
Definition defaults : Bindings :=
  {| threshold := 0.2%float; rootMargin := "0px 0px -50px 0px";
     visibleClass := "visible"; once := true |}.

(** The selector engine accepts the selector in the host's document. *)
Definition accepts (h : Host) (sel : string) : bool :=
  match selector_engine h (classLists h) sel with
  | Normal _ => true
  | Throw _ => false
  end.

(** [observeScrollAnimations] is applied to the entries one after the other
    in list order, each call returns, and the results line up with the
    entries. *)
Inductive applied : Host → list Config → list (option nat) → Host → Prop :=
| applied_nil h : applied h [] [] h
| applied_cons h c cs r rs h1 h2 :
    observeScrollAnimations (selector c) (options c) h = (h1, Normal r) →
    applied h1 cs rs h2 →
    applied h (c :: cs) (r :: rs) h2.

(** The arrow function [observeMultiple] maps over the entries. *)
Definition watch_entry (c : Config) : JS (option nat) :=
  observeScrollAnimations (selector c) (options c).

(** The targets a batch acts on: those of its intersecting entries if the
    callback's class is a valid token, none if it is not. *)
Definition effective_hits (c : Closure)
    (entries : list IntersectionObserverEntry) : list Element :=
  match token_error (cap_visibleClass c) with
  | None => hit_targets entries
  | Some _ => []
  end.

(** The calls a batch makes the callback issue: every entry's calls if the
    class is a valid token; otherwise the one [classList.add] that raises,
    on the first intersecting entry. *)
Definition batch_calls (c : Closure)
    (entries : list IntersectionObserverEntry) : list Call :=
  match token_error (cap_visibleClass c) with
  | None => entries ≫= entry_calls c
  | Some _ => (λ el, CallClassListAdd el (cap_visibleClass c)) <$> take 1 (hit_targets entries)
  end.

(** An entry as the data model has it: the selector engine accepts its
    selector and the constructor accepts its resolved options. *)
Definition valid_entry (h : Host) (c : Config) : Prop :=
  accepts h (selector c) = true
  ∧ init_error h (init_of (destructure (options c))) = None.

(** [configs.map(w).filter(...)], the shape of [observeMultiple], for any
    per-entry function [w]. *)
Definition map_then_filter (w : Config → JS (option ObserverId))
    (configs : list Config) : JS (list ObserverId) :=
  results <- array_map w configs ;; ret (filter_non_null results).

(** The watcher with the unsupported condition simulated for the calls on
    one selector only: [IntersectionObserver] is taken away for the
    duration of such a call and put back after it. *)
Definition without_IntersectionObserver (h : Host) (present : bool) : Host :=
  {| window_defined := window_defined h;
     IntersectionObserver_defined := present;
     selector_engine := selector_engine h;
     rootMargin_parses := rootMargin_parses h;
     classLists := classLists h;
     observers := observers h;
     calls := calls h |}.

Definition unsupported_for (sel : string) (c : Config) : JS (option ObserverId) :=
  fun h =>
    if decide (selector c = sel) then
      let r := watch_entry c (without_IntersectionObserver h false) in
      (without_IntersectionObserver r.1 (IntersectionObserver_defined h), r.2)
    else watch_entry c h.

(** An observer with the targets in [els] struck out. *)
Definition strike (els : list Element) (ob : Observer) : Observer :=
  {| io_init := io_init ob; io_callback := io_callback ob;
     io_targets := filter (λ x, x ∉ els) (io_targets ob) |}.

(** ** Lists *)

Lemma filter_all {A} (P : A → Prop) `{∀ x, Decision (P x)} (l : list A) :
  (∀ x, P x) → filter P l = l.
Proof.
  intros HP. induction l as [|x l IH]; [done |].
  rewrite filter_cons_True by done. by rewrite IH.
Qed.

Lemma filter_none {A} (P : A → Prop) `{∀ x, Decision (P x)} (l : list A) :
  (∀ x, x ∈ l → ¬ P x) → filter P l = [].
Proof.
  induction l as [|x l IH]; intros Hno; [done |].
  rewrite filter_cons_False by (apply Hno; left).
  apply IH. intros y Hy. apply Hno. by right.
Qed.

(** ** Token lists *)

Lemma token_add_elem cls l : cls ∈ token_add cls l.
Proof. unfold token_add. case_decide; set_solver. Qed.

Lemma token_add_mono cls x l : x ∈ l → x ∈ token_add cls l.
Proof. unfold token_add. case_decide; set_solver. Qed.

Lemma token_add_present cls l : cls ∈ l → token_add cls l = l.
Proof. unfold token_add. intros Hin. by rewrite decide_True. Qed.

Lemma token_add_idem cls l : token_add cls (token_add cls l) = token_add cls l.
Proof. apply token_add_present, token_add_elem. Qed.

Lemma elem_of_token_add cls x l : x ∈ token_add cls l ↔ x = cls ∨ x ∈ l.
Proof.
  unfold token_add. case_decide as Hin.
  - split; [by right | by intros [->|?]].
  - rewrite elem_of_app, list_elem_of_singleton. tauto.
Qed.

(** ** Observers with targets struck out *)

Lemma strike_nil ob : strike [] ob = ob.
Proof.
  destruct ob as [i c t]. unfold strike. cbn. f_equal.
  apply filter_all. intros x. apply not_elem_of_nil.
Qed.

Lemma strike_strike els1 els2 ob :
  strike els1 (strike els2 ob) = strike (els2 ++ els1) ob.
Proof.
  unfold strike. cbn. f_equal. rewrite list_filter_filter.
  apply list_filter_iff. intros x. rewrite not_elem_of_app. tauto.
Qed.

Lemma strike_ext els1 els2 ob :
  (∀ x, x ∈ els1 ↔ x ∈ els2) → strike els1 ob = strike els2 ob.
Proof.
  intros Hext. unfold strike. f_equal.
  apply list_filter_iff. intros x. by rewrite Hext.
Qed.

Lemma remove_target_strike el ob : remove_target el ob = strike [el] ob.
Proof.
  unfold remove_target, strike. f_equal.
  apply list_filter_iff. intros x. rewrite list_elem_of_singleton. tauto.
Qed.

Lemma targets_of_alter f o o' h os :
  observers h = os →
  from_option io_targets [] (alter f o os !! o') =
  if decide (o = o') then from_option (io_targets ∘ f) [] (os !! o')
  else targets_of h o'.
Proof.
  intros <-. unfold targets_of. case_decide as Ho.
  - subst. rewrite list_lookup_alter_eq. by destruct (_ !! _).
  - by rewrite list_lookup_alter_ne.
Qed.

Lemma targets_of_strike h h' els o o' :
  observers h' = alter (strike els) o (observers h) →
  targets_of h' o' =
  if decide (o = o') then filter (λ x, x ∉ els) (targets_of h o')
  else targets_of h o'.
Proof.
  intros Hobs. unfold targets_of at 1. rewrite Hobs.
  rewrite (targets_of_alter _ _ _ h) by done.
  case_decide; [| done]. unfold targets_of. by destruct (_ !! _).
Qed.

(** ** The intersecting entries of a batch *)

Lemma hit_targets_cons e es :
  hit_targets (e :: es) =
  if isIntersecting e then target e :: hit_targets es else hit_targets es.
Proof.
  unfold hit_targets. rewrite filter_cons.
  destruct (isIntersecting e); by case_decide.
Qed.

Lemma elem_of_hit_targets el es :
  el ∈ hit_targets es ↔ ∃ e, e ∈ es ∧ isIntersecting e = true ∧ target e = el.
Proof.
  unfold hit_targets. rewrite list_elem_of_fmap. split.
  - intros (e & -> & [Hi He]%list_elem_of_filter). eauto.
  - intros (e & He & Hi & <-). exists e. by rewrite list_elem_of_filter.
Qed.

Lemma elem_of_effective_hits c el es :
  el ∈ effective_hits c es ↔
  token_error (cap_visibleClass c) = None ∧ el ∈ hit_targets es.
Proof.
  unfold effective_hits. destruct (token_error _).
  - split; [by intros ?%elem_of_nil | by intros [? _]].
  - tauto.
Qed.

Lemma elem_of_entry_calls c es call :
  call ∈ es ≫= entry_calls c ↔
  ∃ e, e ∈ es ∧ isIntersecting e = true
       ∧ (call = CallClassListAdd (target e) (cap_visibleClass c)
          ∨ (cap_once c = true ∧ call = CallUnobserve (cap_observer c) (target e))).
Proof.
  rewrite list_elem_of_bind. unfold entry_calls. split.
  - intros (e & Hin & He). exists e.
    destruct (isIntersecting e); [| by apply elem_of_nil in Hin].
    apply elem_of_cons in Hin as [->|Hin]; [by auto |].
    destruct (cap_once c); [| by apply elem_of_nil in Hin].
    apply list_elem_of_singleton in Hin as ->. by auto.
  - intros (e & He & Hi & Hcall). exists e. split; [| done]. rewrite Hi.
    destruct Hcall as [->|[-> ->]]; [left | right; left].
Qed.

(** A call of a batch is a [classList.add] of the callback's class on the
    target of an intersecting entry, or the [unobserve] of such a target
    on the callback's own observer. *)
Lemma elem_of_batch_calls c es call :
  call ∈ batch_calls c es →
  ∃ el, el ∈ hit_targets es
        ∧ (call = CallClassListAdd el (cap_visibleClass c)
           ∨ call = CallUnobserve (cap_observer c) el).
Proof.
  unfold batch_calls. destruct (token_error _).
  - intros (el & -> & Hin)%list_elem_of_fmap. exists el. split; [| by left].
    destruct (hit_targets es) as [|t ts]; cbn in Hin; [by apply elem_of_nil in Hin |].
    apply list_elem_of_singleton in Hin as ->. left.
  - intros (e & He & Hi & Hcall)%elem_of_entry_calls. exists (target e).
    split; [apply elem_of_hit_targets; eauto |].
    destruct Hcall as [->|[_ ->]]; auto.
Qed.

(** ** One entry of a tick *)

Lemma on_entry_miss c e h :
  isIntersecting e = false → on_entry c e h = (h, Normal tt).
Proof. unfold on_entry. by intros ->. Qed.

(** An intersecting entry under a class that is not a valid token: the
    [classList.add] raises, and nothing else happens. *)
Lemma on_entry_invalid c e h x :
  token_error (cap_visibleClass c) = Some x →
  isIntersecting e = true →
  on_entry c e h
  = (log h (CallClassListAdd (target e) (cap_visibleClass c)), Throw x).
Proof.
  intros Hx Hi. unfold on_entry, bind, classList_add. by rewrite Hi, Hx.
Qed.

Section ValidToken.
Variable c : Closure.
Hypothesis Hv : token_error (cap_visibleClass c) = None.

Lemma on_entry_normal e h : (on_entry c e h).2 = Normal tt.
Proof.
  unfold on_entry, bind, classList_add. rewrite Hv.
  by destruct (isIntersecting e), (cap_once c).
Qed.

Lemma on_entry_calls e h :
  calls (on_entry c e h).1 = calls h ++ entry_calls c e.
Proof.
  unfold on_entry, entry_calls, bind, classList_add. rewrite Hv.
  destruct (isIntersecting e), (cap_once c); cbn;
    rewrite <- ?app_assoc, ?app_nil_r; reflexivity.
Qed.

Lemma on_entry_classLists e h :
  classLists (on_entry c e h).1 =
  if isIntersecting e
  then <[target e := token_add (cap_visibleClass c) (classList_of h (target e))]> (classLists h)
  else classLists h.
Proof.
  unfold on_entry, bind, classList_add. rewrite Hv.
  by destruct (isIntersecting e), (cap_once c).
Qed.

Lemma on_entry_observers e h :
  observers (on_entry c e h).1 =
  if isIntersecting e && cap_once c
  then alter (remove_target (target e)) (cap_observer c) (observers h)
  else observers h.
Proof.
  unfold on_entry, bind, classList_add. rewrite Hv.
  by destruct (isIntersecting e), (cap_once c).
Qed.

Lemma on_entry_classList_of e h el :
  classList_of (on_entry c e h).1 el =
  if decide (isIntersecting e = true ∧ target e = el)
  then token_add (cap_visibleClass c) (classList_of h el)
  else classList_of h el.
Proof.
  unfold classList_of at 1. rewrite on_entry_classLists.
  destruct (isIntersecting e).
  - destruct (decide (target e = el)) as [<-|Hne].
    + rewrite lookup_insert_eq, decide_True by done. done.
    + rewrite lookup_insert_ne, decide_False by tauto. done.
  - rewrite decide_False; [done | by intros []].
Qed.

(** *** A batch under a valid class *)

Lemma callback_cons e es h :
  callback c (e :: es) h = callback c es (on_entry c e h).1.
Proof.
  unfold callback. cbn [forEach]. unfold bind.
  pose proof (on_entry_normal e h) as Hn.
  destruct (on_entry c e h) as [h1 r]. cbn in Hn. by subst.
Qed.

Lemma callback_normal es h : (callback c es h).2 = Normal tt.
Proof.
  revert h. induction es as [|e es IH]; intros h; [done |].
  by rewrite callback_cons.
Qed.

Lemma callback_calls es h :
  calls (callback c es h).1 = calls h ++ (es ≫= entry_calls c).
Proof.
  revert h. induction es as [|e es IH]; intros h.
  - cbn. by rewrite app_nil_r.
  - rewrite callback_cons, IH, on_entry_calls, bind_cons. by rewrite app_assoc.
Qed.

Lemma callback_classList_of es h el :
  classList_of (callback c es h).1 el =
  if decide (el ∈ hit_targets es)
  then token_add (cap_visibleClass c) (classList_of h el)
  else classList_of h el.
Proof.
  revert h. induction es as [|e es IH]; intros h.
  - rewrite decide_False; [done | by intros ?%elem_of_nil].
  - rewrite callback_cons, IH, on_entry_classList_of, hit_targets_cons.
    destruct (isIntersecting e) eqn:Hi.
    + destruct (decide (target e = el)) as [<-|Hne].
      * rewrite (decide_True (P := _ ∧ _)) by done.
        rewrite (decide_True (P := target e ∈ target e :: _)) by left.
        case_decide; [apply token_add_idem | done].
      * rewrite (decide_False (P := _ ∧ _)) by tauto.
        apply decide_ext. rewrite elem_of_cons. split; [by right |].
        by intros [->|?].
    + rewrite (decide_False (P := _ ∧ _)); [done | by intros []].
Qed.

Lemma callback_observers es h :
  observers (callback c es h).1 =
  if cap_once c
  then alter (strike (hit_targets es)) (cap_observer c) (observers h)
  else observers h.
Proof.
  revert h. induction es as [|e es IH]; intros h.
  - cbn. destruct (cap_once c); [| done].
    symmetry. apply list_alter_id, strike_nil.
  - rewrite callback_cons, IH, on_entry_observers, hit_targets_cons.
    destruct (cap_once c); [| by rewrite andb_false_r].
    destruct (isIntersecting e); cbn [andb]; [| done].
    rewrite list_alter_alter_eq. apply list_alter_ext; [| done].
    intros ob _. cbn. rewrite remove_target_strike, strike_strike. done.
Qed.

Lemma callback_classLists es h :
  (∀ e, e ∈ es → isIntersecting e = true →
        cap_visibleClass c ∈ classList_of h (target e)) →
  classLists (callback c es h).1 = classLists h.
Proof.
  revert h. induction es as [|e es IH]; intros h Hpre; [done |].
  rewrite callback_cons.
  assert (classLists (on_entry c e h).1 = classLists h) as Heq.
  { rewrite on_entry_classLists. destruct (isIntersecting e) eqn:Hi; [| done].
    assert (cap_visibleClass c ∈ classList_of h (target e)) as Hin
      by (apply Hpre; [left | done]).
    rewrite token_add_present by done.
    apply insert_id. unfold classList_of in *.
    destruct (classLists h !! target e); [done | by apply elem_of_nil in Hin]. }
  rewrite IH; [done |].
  intros e' He' Hi'. unfold classList_of. rewrite Heq.
  apply Hpre; [by right | done].
Qed.

End ValidToken.

(** ** A batch of entries, whatever the class *)

Lemma issued_refl h : issued h h = [].
Proof. unfold issued. apply drop_all. Qed.

Lemma issued_log h call : issued h (log h call) = [call].
Proof. unfold issued. cbn. apply drop_app_length. Qed.

Lemma callback_unfold c e es h :
  callback c (e :: es) h =
  match on_entry c e h with
  | (h1, Normal _) => callback c es h1
  | (h1, Throw x) => (h1, Throw x)
  end.
Proof. reflexivity. Qed.

Lemma callback_single c e h : (callback c [e] h).1 = (on_entry c e h).1.
Proof. rewrite callback_unfold. by destruct (on_entry c e h) as [h1 [[]|x]]. Qed.

(** Non-intersecting entries can be left out of a batch. *)
Lemma callback_filter c es h :
  callback c es h = callback c (filter (λ e, isIntersecting e = true) es) h.
Proof.
  revert h. induction es as [|e es IH]; intros h; [done |].
  destruct (isIntersecting e) eqn:Hi.
  - rewrite filter_cons_True by done. rewrite !callback_unfold.
    destruct (on_entry c e h) as [h1 [[]|x]]; [apply IH | done].
  - rewrite filter_cons_False by (by rewrite Hi).
    rewrite callback_unfold, on_entry_miss by done. apply IH.
Qed.

Lemma callback_all_miss c es h :
  Forall (λ e, isIntersecting e = false) es → callback c es h = (h, Normal tt).
Proof.
  intros Hall. rewrite callback_filter.
  replace (filter (λ e, isIntersecting e = true) es) with (@nil IntersectionObserverEntry);
    [done |].
  symmetry. induction Hall as [|e es He _ IH]; [done |].
  rewrite filter_cons_False by (by rewrite He). done.
Qed.

(** Under a class that is not a valid token the batch stops at its first
    intersecting entry, where [classList.add] raises. *)
Lemma callback_invalid c es h x :
  token_error (cap_visibleClass c) = Some x →
  callback c es h =
  match hit_targets es with
  | [] => (h, Normal tt)
  | el :: _ => (log h (CallClassListAdd el (cap_visibleClass c)), Throw x)
  end.
Proof.
  intros Hx. revert h. induction es as [|e es IH]; intros h; [done |].
  rewrite callback_unfold, hit_targets_cons.
  destruct (isIntersecting e) eqn:Hi.
  - by rewrite (on_entry_invalid c e h x).
  - rewrite on_entry_miss by done. apply IH.
Qed.

Lemma callback_invalid_state c es h x :
  token_error (cap_visibleClass c) = Some x →
  classLists (callback c es h).1 = classLists h
  ∧ observers (callback c es h).1 = observers h.
Proof.
  intros Hx. rewrite (callback_invalid c es h x Hx).
  by destruct (hit_targets es).
Qed.

Lemma issued_callback c es h :
  issued h (callback c es h).1 = batch_calls c es.
Proof.
  unfold batch_calls. destruct (token_error (cap_visibleClass c)) as [x|] eqn:Hx.
  - rewrite (callback_invalid c es h x Hx).
    destruct (hit_targets es); [apply issued_refl | apply issued_log].
  - unfold issued. rewrite callback_calls by done. apply drop_app_length.
Qed.

Lemma callback_classList_of_any c es h el :
  classList_of (callback c es h).1 el =
  if decide (el ∈ effective_hits c es)
  then token_add (cap_visibleClass c) (classList_of h el)
  else classList_of h el.
Proof.
  unfold effective_hits.
  destruct (token_error (cap_visibleClass c)) as [x|] eqn:Hx.
  - unfold classList_of at 1.
    destruct (callback_invalid_state c es h x Hx) as [-> _].
    rewrite decide_False; [done | apply not_elem_of_nil].
  - by apply callback_classList_of.
Qed.

Lemma callback_observers_any c es h :
  observers (callback c es h).1 =
  if cap_once c
  then alter (strike (effective_hits c es)) (cap_observer c) (observers h)
  else observers h.
Proof.
  unfold effective_hits.
  destruct (token_error (cap_visibleClass c)) as [x|] eqn:Hx.
  - destruct (callback_invalid_state c es h x Hx) as [_ ->].
    destruct (cap_once c); [| done].
    symmetry. apply list_alter_id, strike_nil.
  - by apply callback_observers.
Qed.

Lemma callback_targets_of_any c es h o :
  targets_of (callback c es h).1 o =
  if decide (cap_once c = true ∧ cap_observer c = o)
  then filter (λ x, x ∉ effective_hits c es) (targets_of h o)
  else targets_of h o.
Proof.
  pose proof (callback_observers_any c es h) as Hobs.
  destruct (cap_once c).
  - rewrite (targets_of_strike h _ _ _ o Hobs).
    destruct (decide (cap_observer c = o)) as [Ho|Ho].
    + by rewrite decide_True.
    + rewrite decide_False; [done | by intros [_ ?]].
  - rewrite decide_False by (by intros [? _]).
    unfold targets_of. by rewrite Hobs.
Qed.

Lemma callback_classLists_present c es h :
  (∀ e, e ∈ es → isIntersecting e = true →
        cap_visibleClass c ∈ classList_of h (target e)) →
  classLists (callback c es h).1 = classLists h.
Proof.
  destruct (token_error (cap_visibleClass c)) as [x|] eqn:Hx.
  - intros _. apply (callback_invalid_state c es h x Hx).
  - by apply callback_classLists.
Qed.

Lemma callback_once_false c es h :
  cap_once c = false → observers (callback c es h).1 = observers h.
Proof. intros Ho. by rewrite callback_observers_any, Ho. Qed.

(** ** Registration of the matched elements *)

Lemma host_eq (h1 h2 : Host) :
  window_defined h1 = window_defined h2 →
  IntersectionObserver_defined h1 = IntersectionObserver_defined h2 →
  selector_engine h1 = selector_engine h2 →
  rootMargin_parses h1 = rootMargin_parses h2 →
  classLists h1 = classLists h2 →
  observers h1 = observers h2 →
  calls h1 = calls h2 →
  h1 = h2.
Proof. destruct h1, h2. cbn. by intros -> -> -> -> -> -> ->. Qed.

Lemma add_targets_fields els ob :
  io_init (add_targets els ob) = io_init ob
  ∧ io_callback (add_targets els ob) = io_callback ob.
Proof.
  revert ob. induction els as [|el els IH]; intros ob; [done |].
  apply (IH (add_target el ob)).
Qed.

Lemma add_target_targets el ob x :
  x ∈ io_targets (add_target el ob) ↔ x = el ∨ x ∈ io_targets ob.
Proof.
  cbn. case_decide as Hin.
  - split; [by right | by intros [->|?]].
  - rewrite elem_of_app, list_elem_of_singleton. tauto.
Qed.

Lemma add_targets_targets els ob x :
  x ∈ io_targets (add_targets els ob) ↔ x ∈ els ∨ x ∈ io_targets ob.
Proof.
  revert ob. induction els as [|el els IH]; intros ob.
  - cbn. split; [by right | intros [[]%elem_of_nil|?]; done].
  - unfold add_targets. cbn [foldl]. fold (add_targets els (add_target el ob)).
    rewrite IH, add_target_targets, elem_of_cons. tauto.
Qed.

Lemma forEach_observe o els h :
  forEach (λ el, observe o el) els h =
  ({| window_defined := window_defined h;
      IntersectionObserver_defined := IntersectionObserver_defined h;
      selector_engine := selector_engine h;
      rootMargin_parses := rootMargin_parses h;
      classLists := classLists h;
      observers := alter (add_targets els) o (observers h);
      calls := calls h ++ (CallObserve o <$> els) |},
   Normal tt).
Proof.
  revert h. induction els as [|el els IH]; intros h.
  - cbn. unfold ret. f_equal. apply host_eq; cbn; try done.
    + symmetry. by apply list_alter_id.
    + by rewrite app_nil_r.
  - cbn [forEach]. unfold bind at 1. cbn [observe]. rewrite IH.
    f_equal. apply host_eq; cbn; try done.
    + by rewrite list_alter_alter_eq.
    + by rewrite <- app_assoc.
Qed.

(** ** The watcher, by environment, options and selector *)

Lemma observeScrollAnimations_unsupported sel opts h :
  supported h = false →
  observeScrollAnimations sel opts h = (h, Normal None).
Proof.
  unfold supported, observeScrollAnimations, bind,
    typeof_window_undefined, typeof_IntersectionObserver_undefined.
  by destruct (window_defined h), (IntersectionObserver_defined h).
Qed.

(** The constructor rejects the options: the call raises there, before the
    selector is looked at. *)
Lemma observeScrollAnimations_rejected sel opts h x :
  supported h = true →
  init_error h (init_of (destructure opts)) = Some x →
  observeScrollAnimations sel opts h
  = (log h (CallNewRaised (init_of (destructure opts))), Throw x).
Proof.
  unfold supported. intros [Hw Hio]%andb_true_iff Hx.
  unfold observeScrollAnimations, bind at 1 2,
    typeof_window_undefined, typeof_IntersectionObserver_undefined.
  rewrite Hw, Hio. cbn [negb orb].
  unfold bind, new_IntersectionObserver. fold (init_of (destructure opts)).
  by rewrite Hx.
Qed.

Lemma observeScrollAnimations_supported sel opts h els :
  supported h = true →
  init_error h (init_of (destructure opts)) = None →
  selector_engine h (classLists h) sel = Normal els →
  observeScrollAnimations sel opts h =
  (watched h sel (destructure opts) els, Normal (Some (length (observers h)))).
Proof.
  unfold supported. intros [Hw Hio]%andb_true_iff Hinit Hsel.
  unfold observeScrollAnimations, bind at 1 2,
    typeof_window_undefined, typeof_IntersectionObserver_undefined.
  rewrite Hw, Hio. cbn [negb orb].
  unfold bind at 1, new_IntersectionObserver. fold (init_of (destructure opts)).
  rewrite Hinit.
  unfold bind at 1, document_querySelectorAll. cbn [selector_engine classLists log set_observers].
  rewrite Hsel. unfold bind. rewrite forEach_observe. unfold ret.
  f_equal. apply host_eq; cbn; try done.
  - replace (length (observers h)) with (length (observers h) + 0) at 1 by lia.
    by rewrite alter_app_r.
  - by rewrite <- !app_assoc.
Qed.

Lemma observeScrollAnimations_malformed sel opts h e :
  supported h = true →
  init_error h (init_of (destructure opts)) = None →
  selector_engine h (classLists h) sel = Throw e →
  observeScrollAnimations sel opts h =
  (watched h sel (destructure opts) [], Throw e).
Proof.
  unfold supported. intros [Hw Hio]%andb_true_iff Hinit Hsel.
  unfold observeScrollAnimations, bind at 1 2,
    typeof_window_undefined, typeof_IntersectionObserver_undefined.
  rewrite Hw, Hio. cbn [negb orb].
  unfold bind at 1, new_IntersectionObserver. fold (init_of (destructure opts)).
  rewrite Hinit.
  unfold bind at 1, document_querySelectorAll. cbn [selector_engine classLists log set_observers].
  rewrite Hsel. f_equal. apply host_eq; cbn; try done.
  by rewrite <- !app_assoc.
Qed.

(** Every call ends in one of four ways. *)
Lemma observeScrollAnimations_cases sel opts h :
  (supported h = false ∧ observeScrollAnimations sel opts h = (h, Normal None))
  ∨ (∃ x, supported h = true
       ∧ init_error h (init_of (destructure opts)) = Some x
       ∧ observeScrollAnimations sel opts h
         = (log h (CallNewRaised (init_of (destructure opts))), Throw x))
  ∨ (∃ els, supported h = true
       ∧ init_error h (init_of (destructure opts)) = None
       ∧ selector_engine h (classLists h) sel = Normal els
       ∧ observeScrollAnimations sel opts h =
         (watched h sel (destructure opts) els, Normal (Some (length (observers h)))))
  ∨ (∃ e, supported h = true
       ∧ init_error h (init_of (destructure opts)) = None
       ∧ selector_engine h (classLists h) sel = Throw e
       ∧ observeScrollAnimations sel opts h =
         (watched h sel (destructure opts) [], Throw e)).
Proof.
  destruct (supported h) eqn:Hs;
    [| left; eauto using observeScrollAnimations_unsupported].
  destruct (init_error h (init_of (destructure opts))) as [x|] eqn:Hinit;
    [right; left; eauto using observeScrollAnimations_rejected |].
  destruct (selector_engine h (classLists h) sel) as [els|e] eqn:Hsel.
  - right; right; left. exists els. eauto using observeScrollAnimations_supported.
  - right; right; right. exists e. eauto using observeScrollAnimations_malformed.
Qed.

(** Case analysis on how a call ends, keeping what decided the case. *)
Ltac watch_cases sel opts h Hs Hinit Hsel Heq :=
  let x := fresh "x" in
  let els := fresh "els" in
  let e := fresh "e" in
  destruct (observeScrollAnimations_cases sel opts h)
    as [[Hs Heq]
       |[(x & Hs & Hinit & Heq)
        |[(els & Hs & Hinit & Hsel & Heq)
         |(e & Hs & Hinit & Hsel & Heq)]]].

(** ** What every step preserves *)

Lemma observers_shrink_refl h : observers_shrink h h.
Proof. intros o ob Ho. exists ob. by repeat split. Qed.

Lemma observers_shrink_trans h1 h2 h3 :
  observers_shrink h1 h2 → observers_shrink h2 h3 → observers_shrink h1 h3.
Proof.
  intros H12 H23 o ob Ho.
  destruct (H12 o ob Ho) as (ob2 & Ho2 & Hc2 & Hi2 & Ht2).
  destruct (H23 o ob2 Ho2) as (ob3 & Ho3 & Hc3 & Hi3 & Ht3).
  exists ob3. repeat split; [done | congruence | congruence |].
  by etrans.
Qed.

Lemma classes_grow_refl h : classes_grow h h.
Proof. by intros el cls. Qed.

Lemma classes_grow_trans h1 h2 h3 :
  classes_grow h1 h2 → classes_grow h2 h3 → classes_grow h1 h3.
Proof. intros H12 H23 el cls Hin. by apply H23, H12. Qed.

Lemma callback_observers_shrink c es h : observers_shrink h (callback c es h).1.
Proof.
  intros o ob Ho. rewrite callback_observers_any.
  destruct (cap_once c); [| by exists ob].
  destruct (decide (cap_observer c = o)) as [->|Hne].
  - exists (strike (effective_hits c es) ob).
    rewrite list_lookup_alter_eq, Ho. repeat split; try done.
    intros x. cbn. by intros [_ ?]%list_elem_of_filter.
  - exists ob. by rewrite list_lookup_alter_ne.
Qed.

Lemma callback_classes_grow c es h : classes_grow h (callback c es h).1.
Proof.
  intros el cls Hin. rewrite callback_classList_of_any.
  case_decide; [by apply token_add_mono | done].
Qed.

(** A tick either reports nothing, or runs the observer's callback on the
    entries of its current targets. *)
Lemma notify_cases o records h :
  notify o records h = (h, Normal tt)
  ∨ ∃ ob, observers h !! o = Some ob
          ∧ notify o records h = callback (io_callback ob) (delivered h o records) h.
Proof.
  unfold notify. destruct (observers h !! o) as [ob|] eqn:Ho; [| by left].
  destruct (delivered h o records) eqn:Hd; [by left |].
  right. by exists ob.
Qed.

Lemma watched_observers_shrink h sel b els : observers_shrink h (watched h sel b els).
Proof.
  intros o ob Ho. exists ob. cbn. by rewrite (lookup_app_l_Some _ _ _ _ Ho).
Qed.

Lemma step_observers_shrink h h' : step h h' → observers_shrink h h'.
Proof.
  intros [sel opts h0|o records h0].
  - watch_cases sel opts h0 Hs Hinit Hsel Heq; rewrite Heq; cbn [fst];
      auto using observers_shrink_refl, watched_observers_shrink.
    by intros o ob Ho; exists ob.
  - destruct (notify_cases o records h0) as [->|(ob & _ & ->)].
    + apply observers_shrink_refl.
    + apply callback_observers_shrink.
Qed.

Lemma step_classes_grow h h' : step h h' → classes_grow h h'.
Proof.
  intros [sel opts h0|o records h0].
  - watch_cases sel opts h0 Hs Hinit Hsel Heq; rewrite Heq; cbn [fst];
      by intros el cls.
  - destruct (notify_cases o records h0) as [->|(ob & _ & ->)].
    + apply classes_grow_refl.
    + apply callback_classes_grow.
Qed.

Lemma steps_observers_shrink h h' : rtc step h h' → observers_shrink h h'.
Proof.
  induction 1 as [h|h1 h2 h3 H12 _ IH].
  - apply observers_shrink_refl.
  - eapply observers_shrink_trans; [by apply step_observers_shrink | done].
Qed.

Lemma steps_classes_grow h h' : rtc step h h' → classes_grow h h'.
Proof.
  induction 1 as [h|h1 h2 h3 H12 _ IH].
  - apply classes_grow_refl.
  - eapply classes_grow_trans; [by apply step_classes_grow | done].
Qed.

Lemma watcher_shrink h h' o b :
  observers_shrink h h' → watcher h o b → watcher h' o b.
Proof.
  intros Hs (ob & Ho & Hc & Hi).
  destruct (Hs o ob Ho) as (ob' & Ho' & Hc' & Hi' & _).
  exists ob'. repeat split; [done | congruence | congruence].
Qed.

Lemma targets_shrink h h' o el :
  observers_shrink h h' → is_Some (observers h !! o) →
  el ∈ targets_of h' o → el ∈ targets_of h o.
Proof.
  intros Hs [ob Ho]. destruct (Hs o ob Ho) as (ob' & Ho' & _ & _ & Hsub).
  unfold targets_of. rewrite Ho, Ho'. cbn. apply Hsub.
Qed.

(** A call that returns a handle was made in a supported environment, its
    options were accepted and its selector matched; the handle is the
    watcher just made. *)
Lemma returned_handle_inv sel opts h h1 o :
  observeScrollAnimations sel opts h = (h1, Normal (Some o)) →
  ∃ els, supported h = true
         ∧ init_error h (init_of (destructure opts)) = None
         ∧ selector_engine h (classLists h) sel = Normal els
         ∧ h1 = watched h sel (destructure opts) els
         ∧ o = length (observers h).
Proof.
  intros Hrun.
  watch_cases sel opts h Hs Hinit Hsel Heq; rewrite Heq in Hrun; try discriminate.
  injection Hrun as <- <-. by exists els.
Qed.

Lemma watched_watcher h sel b els :
  watcher (watched h sel b els) (length (observers h)) b.
Proof.
  eexists. split.
  - cbn. rewrite lookup_app_r by done. by rewrite Nat.sub_diag.
  - by destruct (add_targets_fields els
      {| io_init := init_of b;
         io_callback := closure_of b (length (observers h));
         io_targets := [] |}) as [-> ->].
Qed.

Lemma returned_handle_watcher sel opts h h1 o :
  observeScrollAnimations sel opts h = (h1, Normal (Some o)) →
  watcher h1 o (destructure opts) ∧ o = length (observers h).
Proof.
  intros (els & _ & _ & _ & -> & ->)%returned_handle_inv.
  split; [apply watched_watcher | done].
Qed.

Lemma issued_watched h sel b els :
  issued h (watched h sel b els) =
  CallNew (length (observers h)) (init_of b) :: CallQuerySelectorAll sel ::
    (CallObserve (length (observers h)) <$> els).
Proof. unfold issued. cbn. apply drop_app_length. Qed.

Lemma targets_of_watched h sel b els el :
  el ∈ targets_of (watched h sel b els) (length (observers h)) ↔ el ∈ els.
Proof.
  unfold targets_of. cbn. rewrite lookup_app_r by done.
  rewrite Nat.sub_diag. cbn. rewrite add_targets_targets. cbn.
  split; [intros [?|[]%elem_of_nil]; done | by left].
Qed.

Lemma watched_log_new els o sel b o' init :
  CallNew o' init ∈
    CallNew o (init_of b) :: CallQuerySelectorAll sel :: (CallObserve o <$> els) →
  o' = o ∧ init = init_of b.
Proof.
  rewrite !elem_of_cons, list_elem_of_fmap.
  intros [[= -> ->]|[?|(el' & ? & _)]]; done.
Qed.

Lemma watched_log_observe els o sel b o' el :
  CallObserve o' el ∈
    CallNew o (init_of b) :: CallQuerySelectorAll sel :: (CallObserve o <$> els) →
  o' = o ∧ el ∈ els.
Proof.
  rewrite !elem_of_cons, list_elem_of_fmap.
  intros [?|[?|(el' & [= -> ->] & Hel)]]; done.
Qed.

(** ** Mapping over the entries *)

Lemma observeMultiple_unfold configs h :
  observeMultiple configs h =
  match array_map watch_entry configs h with
  | (h', Normal results) => (h', Normal (filter_non_null results))
  | (h', Throw e) => (h', Throw e)
  end.
Proof. reflexivity. Qed.

Lemma map_then_filter_unfold w configs h :
  map_then_filter w configs h =
  match array_map w configs h with
  | (h', Normal results) => (h', Normal (filter_non_null results))
  | (h', Throw e) => (h', Throw e)
  end.
Proof. reflexivity. Qed.

Lemma array_map_cons {A B} (f : A → JS B) x l h :
  array_map f (x :: l) h =
  match f x h with
  | (h1, Normal y) =>
      match array_map f l h1 with
      | (h2, Normal ys) => (h2, Normal (y :: ys))
      | (h2, Throw e) => (h2, Throw e)
      end
  | (h1, Throw e) => (h1, Throw e)
  end.
Proof.
  cbn [array_map]. unfold bind at 1. destruct (f x h) as [h1 [y|e]]; [| done].
  unfold bind. by destruct (array_map f l h1) as [h2 [ys|e]].
Qed.

Lemma array_map_app {A B} (f : A → JS B) l1 l2 h :
  array_map f (l1 ++ l2) h =
  match array_map f l1 h with
  | (h1, Normal ys1) =>
      match array_map f l2 h1 with
      | (h2, Normal ys2) => (h2, Normal (ys1 ++ ys2))
      | (h2, Throw e) => (h2, Throw e)
      end
  | (h1, Throw e) => (h1, Throw e)
  end.
Proof.
  revert h. induction l1 as [|x l1 IH]; intros h.
  - cbn. by destruct (array_map f l2 h) as [h2 [ys|e]].
  - rewrite <- app_comm_cons, !array_map_cons.
    destruct (f x h) as [h1 [y|e]]; [| done]. rewrite IH.
    destruct (array_map f l1 h1) as [h2 [ys1|e]]; [| done].
    by destruct (array_map f l2 h2) as [h3 [ys2|e]].
Qed.

Lemma applied_array_map h configs results h' :
  applied h configs results h' ↔
  array_map watch_entry configs h = (h', Normal results).
Proof.
  split.
  - induction 1 as [h|h c cs r rs h1 h2 Hc _ IH]; [done |].
    rewrite array_map_cons. unfold watch_entry at 1. by rewrite Hc, IH.
  - revert h results. induction configs as [|c cs IH]; intros h results.
    + intros [= <- <-]. constructor.
    + rewrite array_map_cons. unfold watch_entry at 1.
      destruct (observeScrollAnimations (selector c) (options c) h)
        as [h1 [r|e]] eqn:Hc; [| done].
      destruct (array_map watch_entry cs h1) as [h2 [rs|e]] eqn:Hcs; [| done].
      intros [= <- <-]. econstructor; [done |]. by apply IH.
Qed.

Lemma applied_length h configs results h' :
  applied h configs results h' → length results = length configs.
Proof. induction 1; cbn; congruence. Qed.

(** An absent outcome leaves the host as it was. *)
Lemma absent_outcome_inert sel opts h h1 :
  observeScrollAnimations sel opts h = (h1, Normal None) → h1 = h.
Proof.
  intros Hrun.
  watch_cases sel opts h Hs Hinit Hsel Heq; rewrite Heq in Hrun; congruence.
Qed.

Lemma applied_unsupported h configs :
  supported h = false →
  applied h configs (replicate (length configs) None) h.
Proof.
  intros Hs. induction configs as [|c cs IH]; [constructor |].
  cbn. econstructor; [| exact IH].
  by apply observeScrollAnimations_unsupported.
Qed.

Lemma valid_entry_watched h sel b els c :
  valid_entry (watched h sel b els) c ↔ valid_entry h c.
Proof. done. Qed.

Lemma applied_supported h configs :
  supported h = true →
  Forall (valid_entry h) configs →
  ∃ h', applied h configs (Some <$> seq (length (observers h)) (length configs)) h'
        ∧ (∀ o ob, observers h !! o = Some ob → observers h' !! o = Some ob)
        ∧ ∀ i c, configs !! i = Some c →
            watcher h' (length (observers h) + i) (destructure (options c)).
Proof.
  intros Hs Hall. revert h Hs Hall.
  induction configs as [|c cs IH]; intros h Hs Hall.
  - exists h. split; [constructor |]. split; [done |]. by intros i c ?.
  - apply Forall_cons in Hall as [[Hc Hinit] Hcs]. unfold accepts in Hc.
    destruct (selector_engine h (classLists h) (selector c)) as [els|] eqn:Hsel;
      [| done].
    pose proof (observeScrollAnimations_supported _ (options c) _ _ Hs Hinit Hsel)
      as Hrun.
    set (h1 := watched h (selector c) (destructure (options c)) els) in *.
    destruct (IH h1) as (h' & Happ & Hkeep & Hw); [done | done |].
    assert (length (observers h1) = S (length (observers h))) as Hlen.
    { cbn. rewrite length_app. cbn. lia. }
    rewrite Hlen in Happ, Hw.
    exists h'. split; [by econstructor |].
    split.
    + intros o ob Ho. apply Hkeep. cbn. by apply lookup_app_l_Some.
    + intros [|i] c' Hi.
      * injection Hi as <-. rewrite Nat.add_0_r.
        destruct (watched_watcher h (selector c) (destructure (options c)) els)
          as (ob & Ho & Hcb & Hin).
        exists ob. by rewrite (Hkeep _ _ Ho).
      * replace (length (observers h) + S i) with (S (length (observers h)) + i) by lia.
        by apply Hw.
Qed.

Lemma applied_scope h cs rs h' :
  applied h cs rs h' →
  classLists h' = classLists h
  ∧ selector_engine h' = selector_engine h
  ∧ rootMargin_parses h' = rootMargin_parses h
  ∧ supported h' = supported h.
Proof.
  induction 1 as [h|h c cs r rs h1 h2 Hc _ IH]; [done |].
  destruct IH as (-> & -> & -> & ->).
  watch_cases (selector c) (options c) h Hs Hinit Hsel Heq; rewrite Heq in Hc;
    try discriminate; by injection Hc as <- _.
Qed.

Lemma applied_observers h cs rs h' :
  applied h cs rs h' →
  ∃ new, observers h' = observers h ++ new
         ∧ length new = if supported h then length cs else 0.
Proof.
  induction 1 as [h|h c cs r rs h1 h2 Hc Happ IH].
  - exists []. rewrite app_nil_r. by destruct (supported h).
  - destruct IH as (new & Hobs & Hlen).
    watch_cases (selector c) (options c) h Hs Hinit Hsel Heq; rewrite Heq in Hc;
      try discriminate; injection Hc as <- _; rewrite Hs.
    + exists new. by rewrite Hs in Hlen.
    + eexists (_ :: new). rewrite Hobs. cbn [observers watched].
      rewrite <- app_assoc. split; [reflexivity |].
      cbn. rewrite Hlen.
      change (supported (watched h (selector c) (destructure (options c)) els))
        with (supported h).
      by rewrite Hs.
Qed.

(** If every call returned, the environment was unsupported or every entry
    was valid. *)
Lemma applied_inv h cs rs h' :
  applied h cs rs h' →
  supported h = false ∨ Forall (valid_entry h) cs.
Proof.
  induction 1 as [h|h c cs r rs h1 h2 Hc _ IH]; [by right |].
  watch_cases (selector c) (options c) h Hs Hinit Hsel Heq; rewrite Heq in Hc;
    try discriminate; injection Hc as <- _.
  - by left.
  - destruct IH as [Hs1|Hall]; [by left |].
    right. constructor; [| exact Hall].
    split; [| done]. unfold accepts. by rewrite Hsel.
Qed.

Lemma filter_non_null_stable rs :
  Some <$> filter_non_null rs = filter is_Some rs.
Proof.
  unfold filter_non_null. induction rs as [|[o|] rs IH]; [done | |].
  - rewrite filter_cons_True by by eexists. cbn. by f_equal.
  - rewrite filter_cons_False by (by intros [? ?]). done.
Qed.

Lemma filter_non_null_all_some os : filter_non_null (Some <$> os) = os.
Proof. unfold filter_non_null. induction os as [|o os IH]; cbn; by f_equal. Qed.

Lemma filter_non_null_all_none n : filter_non_null (replicate n None) = [].
Proof. unfold filter_non_null. by induction n. Qed.

(** * The specification *)

(** ** Environment check *)

(** C2: when [window] is undefined or [IntersectionObserver] is undefined,
    [observeScrollAnimations] returns [null] for every selector and every
    options object, and the host is left exactly as it was: no observer is
    created, no class list is changed, and no host call at all is issued
    (no construction, no selector query, no [observe]). *)
Theorem unsupported_environment_returns_null sel opts h :
  window_defined h = false ∨ IntersectionObserver_defined h = false →
  observeScrollAnimations sel opts h = (h, Normal None)
  ∧ issued h (observeScrollAnimations sel opts h).1 = [].
Proof.
  intros Hu.
  assert (supported h = false) as Hs.
  { unfold supported. destruct Hu as [-> | ->]; [done | apply andb_false_r]. }
  rewrite observeScrollAnimations_unsupported by done.
  split; [done | apply issued_refl].
Qed.

Lemma unsupported_environment_returns_null_witness :
  (window_defined server = false ∨ IntersectionObserver_defined server = false)
  ∧ observeScrollAnimations ".fade" None server = (server, Normal None)
  ∧ issued server (observeScrollAnimations ".fade" None server).1 = [].
Proof.
  split; [by left |].
  apply (unsupported_environment_returns_null ".fade" None server). by left.
Defined.

(** C9: the environment check comes before the selector query.  In an
    unsupported environment a selector the engine would reject is never
    handed to the engine: the call returns [null], it does not raise, and no
    [querySelectorAll] is issued. *)
Theorem environment_check_precedes_query sel opts h e :
  supported h = false →
  selector_engine h (classLists h) sel = Throw e →
  (observeScrollAnimations sel opts h).2 = Normal None
  ∧ (observeScrollAnimations sel opts h).2 ≠ Throw e
  ∧ ∀ s, CallQuerySelectorAll s ∉ issued h (observeScrollAnimations sel opts h).1.
Proof.
  intros Hs _. rewrite observeScrollAnimations_unsupported by done.
  cbn. rewrite issued_refl. repeat split; [done |].
  intros s. apply not_elem_of_nil.
Qed.

Lemma environment_check_precedes_query_witness :
  supported server = false
  ∧ selector_engine server (classLists server) "[" = Throw (SyntaxError "[")
  ∧ (observeScrollAnimations "[" None server).2 = Normal None.
Proof.
  split; [reflexivity |]. split; [reflexivity |].
  apply (environment_check_precedes_query "[" None server (SyntaxError "["));
    reflexivity.
Defined.

(** ** Selectors *)

(** C7: in a supported environment and with options as the data model has
    them (a threshold in [0, 1] and a root margin that parses, so that the
    observer is constructed), when the selector engine rejects the selector
    with a condition [e], [observeScrollAnimations] ends by raising that
    same [e]: it is neither caught nor wrapped, and in particular the call
    does not return [null]. *)
Theorem malformed_selector_propagates sel opts h e :
  supported h = true →
  init_error h (init_of (destructure opts)) = None →
  selector_engine h (classLists h) sel = Throw e →
  (observeScrollAnimations sel opts h).2 = Throw e
  ∧ (observeScrollAnimations sel opts h).2 ≠ Normal None.
Proof.
  intros Hs Hinit Hsel. by rewrite (observeScrollAnimations_malformed _ _ _ e).
Qed.

Lemma malformed_selector_propagates_witness :
  supported browser = true
  ∧ init_error browser (init_of (destructure None)) = None
  ∧ selector_engine browser (classLists browser) "[" = Throw (SyntaxError "[")
  ∧ (observeScrollAnimations "[" None browser).2 = Throw (SyntaxError "[").
Proof.
  split; [reflexivity |]. split; [reflexivity |]. split; [reflexivity |].
  apply (malformed_selector_propagates "[" None browser (SyntaxError "["));
    reflexivity.
Defined.

(** C8: in a supported environment and with options as the data model has
    them (a threshold in [0, 1] and a root margin that parses), a selector
    that the engine accepts and that matches no element still yields a
    handle, not [null]: the handle is a watcher with the resolved
    configuration and without targets. *)
Theorem zero_matches_returns_handle sel opts h :
  supported h = true →
  init_error h (init_of (destructure opts)) = None →
  selector_engine h (classLists h) sel = Normal [] →
  ∃ o, (observeScrollAnimations sel opts h).2 = Normal (Some o)
       ∧ watcher (observeScrollAnimations sel opts h).1 o (destructure opts)
       ∧ targets_of (observeScrollAnimations sel opts h).1 o = [].
Proof.
  intros Hs Hinit Hsel. exists (length (observers h)).
  pose proof (observeScrollAnimations_supported sel opts h [] Hs Hinit Hsel) as Hrun.
  destruct (returned_handle_watcher _ _ _ _ _ Hrun) as [Hw _].
  rewrite Hrun. cbn [fst snd]. repeat split; [done |].
  apply elem_of_nil_inv. intros el. rewrite targets_of_watched.
  apply not_elem_of_nil.
Qed.

Lemma zero_matches_returns_handle_witness :
  supported browser = true
  ∧ init_error browser (init_of (destructure None)) = None
  ∧ selector_engine browser (classLists browser) ".absent" = Normal []
  ∧ ∃ o, (observeScrollAnimations ".absent" None browser).2 = Normal (Some o)
         ∧ watcher (observeScrollAnimations ".absent" None browser).1 o (destructure None)
         ∧ targets_of (observeScrollAnimations ".absent" None browser).1 o = [].
Proof.
  split; [reflexivity |]. split; [reflexivity |]. split; [reflexivity |].
  apply (zero_matches_returns_handle ".absent" None browser); reflexivity.
Defined.

(** ** Configuration *)

(** C4: options left out altogether, or the empty object, resolve to the
    defaults threshold 0.2, rootMargin "0px 0px -50px 0px", visibleClass
    "visible", once true; field by field, an absent field resolves to its
    default and a supplied field to the supplied value, whatever the other
    fields are; and the handle a call returns is a watcher configured with
    exactly these resolved values. *)
Theorem defaults_merge_under_supplied_fields :
  destructure None = defaults
  ∧ destructure (Some empty_options) = defaults
  ∧ (∀ m v o, threshold (destructure (Some (Build_ScrollAnimationOptions None m v o)))
              = 0.2%float)
  ∧ (∀ t m v o, threshold (destructure (Some (Build_ScrollAnimationOptions (Some t) m v o)))
                = t)
  ∧ (∀ t v o, rootMargin (destructure (Some (Build_ScrollAnimationOptions t None v o)))
              = "0px 0px -50px 0px")
  ∧ (∀ t m v o, rootMargin (destructure (Some (Build_ScrollAnimationOptions t (Some m) v o)))
                = m)
  ∧ (∀ t m o, visibleClass (destructure (Some (Build_ScrollAnimationOptions t m None o)))
              = "visible")
  ∧ (∀ t m v o, visibleClass (destructure (Some (Build_ScrollAnimationOptions t m (Some v) o)))
                = v)
  ∧ (∀ t m v, once (destructure (Some (Build_ScrollAnimationOptions t m v None)))
              = true)
  ∧ (∀ t m v o, once (destructure (Some (Build_ScrollAnimationOptions t m v (Some o))))
                = o)
  ∧ (∀ sel opts h h1 o,
       observeScrollAnimations sel opts h = (h1, Normal (Some o)) →
       ∃ ob, observers h1 !! o = Some ob
             ∧ init_threshold (io_init ob) = threshold (destructure opts)
             ∧ init_rootMargin (io_init ob) = rootMargin (destructure opts)
             ∧ cap_visibleClass (io_callback ob) = visibleClass (destructure opts)
             ∧ cap_once (io_callback ob) = once (destructure opts)).
Proof.
  repeat (split; [reflexivity |]).
  intros sel opts h h1 o Hrun.
  destruct (returned_handle_watcher _ _ _ _ _ Hrun) as [(ob & Ho & Hc & Hi) _].
  exists ob. rewrite Hc, Hi. by repeat split.
Qed.

Lemma defaults_merge_under_supplied_fields_witness :
  ∃ ob, observers (observeScrollAnimations ".fade" (Some shown_only) browser).1 !! 0
          = Some ob
        ∧ init_threshold (io_init ob) = 0.2%float
        ∧ init_rootMargin (io_init ob) = "0px 0px -50px 0px"
        ∧ cap_visibleClass (io_callback ob) = "shown"
        ∧ cap_once (io_callback ob) = true.
Proof.
  destruct defaults_merge_under_supplied_fields
    as (_ & _ & _ & _ & _ & _ & _ & _ & _ & _ & Hcall).
  apply (Hcall ".fade" (Some shown_only) browser). reflexivity.
Defined.

(** C6: for every call, whatever observer the call constructs is constructed
    with exactly the resolved threshold and rootMargin; and when the call
    returns a handle, that handle is the one observer the call constructed,
    every [observe] the call issued was on it, its stored options are the
    resolved ones, and its targets are the elements the selector matched. *)
Theorem options_forwarded_to_single_observer sel opts h :
  (∀ o init,
     CallNew o init ∈ issued h (observeScrollAnimations sel opts h).1 →
     init = {| init_threshold := threshold (destructure opts);
               init_rootMargin := rootMargin (destructure opts) |})
  ∧ (∀ o,
       (observeScrollAnimations sel opts h).2 = Normal (Some o) →
       (∀ o' init,
          CallNew o' init ∈ issued h (observeScrollAnimations sel opts h).1 → o' = o)
       ∧ (∀ o' el,
            CallObserve o' el ∈ issued h (observeScrollAnimations sel opts h).1 → o' = o)
       ∧ (∃ ob, observers (observeScrollAnimations sel opts h).1 !! o = Some ob
                ∧ io_init ob =
                  {| init_threshold := threshold (destructure opts);
                     init_rootMargin := rootMargin (destructure opts) |})
       ∧ (∃ els, selector_engine h (classLists h) sel = Normal els
                 ∧ (∀ el, el ∈ els → CallObserve o el ∈
                            issued h (observeScrollAnimations sel opts h).1)
                 ∧ (∀ el, el ∈ targets_of (observeScrollAnimations sel opts h).1 o
                          ↔ el ∈ els))).
Proof.
  watch_cases sel opts h Hs Hinit Hsel Heq;
    rewrite Heq; cbn [fst snd];
    rewrite ?issued_refl, ?issued_log, ?issued_watched.
  - split; [by intros o init ?%elem_of_nil | by intros o ?].
  - split; [| by intros o ?].
    by intros o init ?%list_elem_of_singleton.
  - split; [intros o init Hin; by apply (watched_log_new _ _ _ _ _ _ Hin) |].
    intros o [= <-]. repeat split.
    + intros o' init Hin. by apply (watched_log_new _ _ _ _ _ _ Hin).
    + intros o' el Hin. by apply (watched_log_observe _ _ _ _ _ _ Hin).
    + destruct (returned_handle_watcher _ _ _ _ _ Heq) as [(ob & Ho & _ & Hi) _].
      by exists ob.
    + exists els. repeat split; [done | | apply targets_of_watched ..].
      intros el Hel. do 2 right. by apply list_elem_of_fmap_2.
  - split; [intros o init Hin; by apply (watched_log_new _ _ _ _ _ _ Hin) | by intros o ?].
Qed.

Lemma options_forwarded_to_single_observer_witness :
  (observeScrollAnimations ".fade" None browser).2 = Normal (Some 0)
  ∧ ∃ ob, observers (observeScrollAnimations ".fade" None browser).1 !! 0 = Some ob
          ∧ io_init ob =
            {| init_threshold := threshold (destructure None);
               init_rootMargin := rootMargin (destructure None) |}.
Proof.
  split; [reflexivity |].
  destruct (options_forwarded_to_single_observer ".fade" None browser) as [_ Hret].
  destruct (Hret 0) as (_ & _ & Hob & _); [reflexivity | exact Hob].
Defined.

(** ** Callback semantics *)

(** C1, as stated, fails: a watcher can be made with a class that is not a
    single token, here ["a b"] with the default [once].  When a tick reports
    its target 1 intersecting, the callback's [classList.add] raises: the
    class is not on the element, no [unobserve] is issued and the element is
    still a target of the observer. *)
Lemma spaced_class_is_never_added :
  (observeScrollAnimations ".fade" (Some spaced_class) browser).2 = Normal (Some 0)
  ∧ once (destructure (Some spaced_class)) = true
  ∧ (notify 0 [hit 1]
       (observeScrollAnimations ".fade" (Some spaced_class) browser).1).2
    = Throw (InvalidCharacterError "a b")
  ∧ ("a b" ∉ classList_of
               (notify 0 [hit 1]
                  (observeScrollAnimations ".fade" (Some spaced_class) browser).1).1 1)
  ∧ 1 ∈ targets_of
          (notify 0 [hit 1]
             (observeScrollAnimations ".fade" (Some spaced_class) browser).1).1 0
  ∧ issued (observeScrollAnimations ".fade" (Some spaced_class) browser).1
           (notify 0 [hit 1]
              (observeScrollAnimations ".fade" (Some spaced_class) browser).1).1
    = [CallClassListAdd 1 "a b"].
Proof.
  split; [reflexivity |]. split; [reflexivity |]. split; [reflexivity |].
  split; [| split; [| reflexivity]].
  - vm_compute. apply not_elem_of_nil.
  - vm_compute. left.
Qed.

(** C1, amended: let [o] be a handle returned by [observeScrollAnimations]
    whose resolved [visibleClass] is a valid class token (not empty, no
    whitespace), at any later moment (after any further calls and ticks).
    The observer's callback is the closure over the resolved [visibleClass]
    and [once].  When it is run on a batch of entries, the calls it issues
    are, entry by entry in order, nothing for a non-intersecting entry and,
    for an intersecting one, [classList.add(visibleClass)] on the target
    followed at once, when [once] is true, by [unobserve] of that same
    target on [o].  Afterwards the class list of each intersecting entry's
    target is the set-add of [visibleClass] to what it was: it contains the
    class, and is unchanged if it contained it already.  When [once] is true
    the target is no longer among the observer's targets and no later
    delivery to [o] carries an entry for it. *)
Theorem intersecting_entry_marked_then_unobserved sel opts h0 h1 o h entries :
  observeScrollAnimations sel opts h0 = (h1, Normal (Some o)) →
  token_error (visibleClass (destructure opts)) = None →
  rtc step h1 h →
  ∃ ob, observers h !! o = Some ob
    ∧ io_callback ob = closure_of (destructure opts) o
    ∧ (callback (io_callback ob) entries h).2 = Normal tt
    ∧ issued h (callback (io_callback ob) entries h).1
      = entries ≫= entry_calls (closure_of (destructure opts) o)
    ∧ ∀ entry, entry ∈ entries → isIntersecting entry = true →
        classList_of (callback (io_callback ob) entries h).1 (target entry)
        = token_add (visibleClass (destructure opts)) (classList_of h (target entry))
        ∧ visibleClass (destructure opts)
          ∈ classList_of (callback (io_callback ob) entries h).1 (target entry)
        ∧ (visibleClass (destructure opts) ∈ classList_of h (target entry) →
           classList_of (callback (io_callback ob) entries h).1 (target entry)
           = classList_of h (target entry))
        ∧ (once (destructure opts) = true →
           (target entry ∉ targets_of (callback (io_callback ob) entries h).1 o)
           ∧ ∀ h2 records e,
               rtc step (callback (io_callback ob) entries h).1 h2 →
               e ∈ delivered h2 o records → target e ≠ target entry).
Proof.
  intros Hrun Hv Hsteps.
  destruct (returned_handle_watcher _ _ _ _ _ Hrun) as [Hw1 _].
  destruct (watcher_shrink _ _ _ _ (steps_observers_shrink _ _ Hsteps) Hw1)
    as (ob & Ho & Hc & _).
  exists ob. rewrite Hc. split; [done |]. split; [done |].
  set (c := closure_of (destructure opts) o).
  assert (token_error (cap_visibleClass c) = None) as Hvc by done.
  split; [by apply callback_normal |].
  split; [rewrite issued_callback; unfold batch_calls; by rewrite Hvc |].
  intros entry Hin Hi.
  assert (target entry ∈ hit_targets entries) as Hhit
    by (apply elem_of_hit_targets; eauto).
  assert (classList_of (callback c entries h).1 (target entry)
          = token_add (visibleClass (destructure opts)) (classList_of h (target entry)))
    as Hcl by (rewrite callback_classList_of by done; by rewrite decide_True).
  split; [done |]. split; [rewrite Hcl; apply token_add_elem |].
  split; [intros Hin'; rewrite Hcl; by apply token_add_present |].
  intros Honce.
  assert (target entry ∉ targets_of (callback c entries h).1 o) as Hgone.
  { rewrite callback_targets_of_any, decide_True by done.
    rewrite list_elem_of_filter, elem_of_effective_hits. tauto. }
  split; [done |].
  intros h2 records e Hsteps2 [He _]%list_elem_of_filter Heq.
  apply Hgone. rewrite <- Heq.
  apply (targets_shrink _ h2); [by apply steps_observers_shrink | | done].
  destruct (callback_observers_shrink c entries h o ob Ho) as (ob' & -> & _).
  by eexists.
Qed.

Lemma intersecting_entry_marked_then_unobserved_witness :
  let h1 := (observeScrollAnimations ".fade" None browser).1 in
  token_error (visibleClass (destructure None)) = None
  ∧ ∃ ob, observers h1 !! 0 = Some ob
    ∧ issued h1 (callback (io_callback ob) [hit 1; miss 2] h1).1
      = [CallClassListAdd 1 "visible"; CallUnobserve 0 1]
    ∧ classList_of (callback (io_callback ob) [hit 1; miss 2] h1).1 1 = ["visible"]
    ∧ 1 ∉ targets_of (callback (io_callback ob) [hit 1; miss 2] h1).1 0.
Proof.
  intros h1. split; [reflexivity |].
  destruct (intersecting_entry_marked_then_unobserved
              ".fade" None browser h1 0 h1 [hit 1; miss 2])
    as (ob & Ho & Hc & _ & Hcalls & Hentry);
    [reflexivity | reflexivity | apply rtc_refl |].
  destruct (Hentry (hit 1)) as (Hcl & _ & _ & Honce); [left | reflexivity |].
  destruct Honce as [Hgone _]; [reflexivity |].
  exists ob. repeat split; [exact Ho | exact Hcalls | exact Hcl | exact Hgone].
Defined.

(** C5, as stated, fails: a repeating watcher ([once] false) with the class
    ["a b"] does not re-add the class on an intersecting tick.  The
    [classList.add] raises, and after the tick, and after a second one, the
    class is still not on the element.  (The element does stay observed.) *)
Lemma spaced_class_is_never_re_added :
  (observeScrollAnimations ".fade" (Some spaced_repeating) browser).2 = Normal (Some 0)
  ∧ once (destructure (Some spaced_repeating)) = false
  ∧ (notify 0 [hit 1]
       (observeScrollAnimations ".fade" (Some spaced_repeating) browser).1).2
    = Throw (InvalidCharacterError "a b")
  ∧ ("a b" ∉ classList_of
               (notify 0 [hit 1]
                  (observeScrollAnimations ".fade" (Some spaced_repeating) browser).1).1 1)
  ∧ "a b" ∉ classList_of
              (notify 0 [hit 1]
                 (notify 0 [hit 1]
                    (observeScrollAnimations ".fade" (Some spaced_repeating) browser).1).1).1
              1.
Proof.
  split; [reflexivity |]. split; [reflexivity |]. split; [reflexivity |].
  split; vm_compute; apply not_elem_of_nil.
Qed.

(** C5, amended: the callback never removes a class.  Whatever class an
    element carries before a batch it carries after it, and so after any
    sequence of calls and ticks.  With [once] false the observers, and so
    every element's registration, are the same after a batch as before;
    when the class is a valid class token (not empty, no whitespace), each
    intersecting entry issues the [classList.add] again and the class is
    present afterwards; a batch whose intersecting targets all carry the
    class already, and in particular a batch without intersecting entries,
    leaves every class list as it was. *)
Theorem class_never_removed :
  (∀ c entries h el cls,
     cls ∈ classList_of h el → cls ∈ classList_of (callback c entries h).1 el)
  ∧ (∀ h h' el cls,
       rtc step h h' → cls ∈ classList_of h el → cls ∈ classList_of h' el)
  ∧ (∀ c entries h,
       cap_once c = false → observers (callback c entries h).1 = observers h)
  ∧ (∀ c entries h e,
       token_error (cap_visibleClass c) = None →
       cap_once c = false → e ∈ entries → isIntersecting e = true →
       CallClassListAdd (target e) (cap_visibleClass c)
         ∈ issued h (callback c entries h).1
       ∧ cap_visibleClass c ∈ classList_of (callback c entries h).1 (target e)
       ∧ ∀ o, targets_of (callback c entries h).1 o = targets_of h o)
  ∧ (∀ c entries h,
       (∀ e, e ∈ entries → isIntersecting e = true →
             cap_visibleClass c ∈ classList_of h (target e)) →
       classLists (callback c entries h).1 = classLists h)
  ∧ (∀ c entries h,
       Forall (λ e, isIntersecting e = false) entries →
       classLists (callback c entries h).1 = classLists h).
Proof.
  split; [intros c entries h; apply callback_classes_grow |].
  split; [intros h h' el cls Hsteps; by apply steps_classes_grow |].
  split; [apply callback_once_false |].
  split; [| split].
  - intros c entries h e Hv Honce Hin Hi. repeat split.
    + rewrite issued_callback. unfold batch_calls. rewrite Hv.
      rewrite elem_of_entry_calls. exists e. auto.
    + rewrite (callback_classList_of c Hv), decide_True; [apply token_add_elem |].
      apply elem_of_hit_targets. eauto.
    + intros o. rewrite callback_targets_of_any, decide_False; [done |].
      rewrite Honce. by intros [? _].
  - apply callback_classLists_present.
  - intros c entries h Hall. by rewrite callback_all_miss.
Qed.

Lemma class_never_removed_witness :
  let c := closure_of (destructure (Some repeating)) 0 in
  token_error (cap_visibleClass c) = None
  ∧ "visible" ∈ classList_of after_first_tick 1
  ∧ "visible" ∈ classList_of (callback c [miss 1; hit 1] after_first_tick).1 1
  ∧ targets_of (callback c [miss 1; hit 1] after_first_tick).1 0 = [1; 2]
  ∧ classLists (callback c [miss 1; hit 1] after_first_tick).1
    = classLists after_first_tick.
Proof.
  intros c.
  destruct class_never_removed as (Hkeep & _ & _ & Hagain & Hsame & _).
  assert ("visible" ∈ classList_of after_first_tick 1) as Hin by (vm_compute; left).
  split; [reflexivity |]. split; [exact Hin |].
  split; [apply (Hkeep c [miss 1; hit 1] after_first_tick 1 "visible" Hin) |].
  split.
  - destruct (Hagain c [miss 1; hit 1] after_first_tick (hit 1)) as (_ & _ & Ht);
      [reflexivity | reflexivity | right; left | reflexivity |].
    rewrite Ht. reflexivity.
  - apply (Hsame c [miss 1; hit 1] after_first_tick).
    intros e He Hi.
    apply elem_of_cons in He as [->|He]; [discriminate |].
    apply list_elem_of_singleton in He as ->. exact Hin.
Defined.

(** C10: a non-intersecting entry does nothing at all: processing it
    returns the host unchanged, so a batch behaves as the batch of its
    intersecting entries alone.  An element that is the target of no
    intersecting entry keeps its class list and its registration with every
    observer, and no [classList.add] and no [unobserve] is issued for it.
    The [unobserve] of one intersecting entry removes that entry's target
    only; observers other than the callback's own are not touched. *)
Theorem non_intersecting_entries_are_inert :
  (∀ c e h, isIntersecting e = false → on_entry c e h = (h, Normal tt))
  ∧ (∀ c entries h,
       callback c entries h
       = callback c (filter (λ e, isIntersecting e = true) entries) h)
  ∧ (∀ c entries h el,
       el ∉ hit_targets entries →
       classList_of (callback c entries h).1 el = classList_of h el
       ∧ (∀ o, el ∈ targets_of (callback c entries h).1 o ↔ el ∈ targets_of h o)
       ∧ (∀ o, CallUnobserve o el ∉ issued h (callback c entries h).1)
       ∧ (∀ cls, CallClassListAdd el cls ∉ issued h (callback c entries h).1))
  ∧ (∀ c e h o el,
       el ≠ target e →
       el ∈ targets_of (on_entry c e h).1 o ↔ el ∈ targets_of h o)
  ∧ (∀ c entries h o,
       o ≠ cap_observer c → targets_of (callback c entries h).1 o = targets_of h o).
Proof.
  split; [apply on_entry_miss |].
  split; [apply callback_filter |].
  split; [| split].
  - intros c entries h el Hel.
    assert (el ∉ effective_hits c entries) as Hel'
      by (rewrite elem_of_effective_hits; tauto).
    split; [| split; [| split]].
    + by rewrite callback_classList_of_any, decide_False.
    + intros o. rewrite callback_targets_of_any. case_decide; [| done].
      rewrite list_elem_of_filter. tauto.
    + intros o. rewrite issued_callback.
      intros (el' & Hin & [?|[= _ ->]])%elem_of_batch_calls; done.
    + intros cls. rewrite issued_callback.
      intros (el' & Hin & [[= -> _]|?])%elem_of_batch_calls; done.
  - intros c e h o el Hne.
    rewrite <- callback_single, callback_targets_of_any. case_decide; [| done].
    rewrite list_elem_of_filter, elem_of_effective_hits, elem_of_hit_targets.
    split; [tauto |]. intros Hin. split; [| done].
    intros (_ & e' & ->%list_elem_of_singleton & _ & ?). done.
  - intros c entries h o Hne.
    rewrite callback_targets_of_any, decide_False; [done |].
    by intros [_ ?].
Qed.

Lemma non_intersecting_entries_are_inert_witness :
  let h1 := (observeScrollAnimations ".fade" None browser).1 in
  let c := closure_of defaults 0 in
  callback c [miss 1; miss 2] h1 = (h1, Normal tt)
  ∧ classList_of (callback c [hit 1; miss 2] h1).1 2 = classList_of h1 2
  ∧ (2 ∈ targets_of (callback c [hit 1; miss 2] h1).1 0 ↔ 2 ∈ targets_of h1 0).
Proof.
  intros h1 c.
  destruct non_intersecting_entries_are_inert as (Hmiss & Hfilter & Hframe & _).
  split.
  - rewrite (Hfilter c [miss 1; miss 2] h1). reflexivity.
  - destruct (Hframe c [hit 1; miss 2] h1 2) as (Hcl & Ht & _).
    + vm_compute. intros [Hbad|Hbad]%elem_of_cons; [discriminate |].
      by apply elem_of_nil in Hbad.
    + split; [exact Hcl | exact (Ht 0)].
Defined.

(** ** The batch registrar *)

(** C3: for every ordered sequence of entries as the data model has them
    (each selector accepted by the selector engine, each configuration
    accepted by the constructor), and for every sequence at all in an
    unsupported environment, [observeMultiple] applies
    [observeScrollAnimations] to the entries in input order, one result per
    entry, and returns the results that are not [null], in their order
    (mapping [Some] over the returned handles gives the results with the
    [null]s struck out).  Unsupported: every result is [null], the list
    returned is empty and the host is untouched.  Supported: the handles are
    the fresh observers in order of creation, the i-th being a watcher with
    the i-th entry's resolved configuration.

    For entries [A, B, C] where the call for B yields no handle and those
    for A and C yield [hA] and [hC], the result is [hA, hC].
    [observeMultiple] is the map-then-filter pipeline over the watcher, and
    the pipeline treats outcomes alike whatever produced them: the same
    holds with a watcher for which the unsupported condition is simulated
    for single calls, and there an entry with an absent outcome that left
    the host as it was can be taken out of the sequence without changing
    the result or the host. *)
Theorem observeMultiple_maps_then_filters h configs :
  supported h = false ∨ Forall (valid_entry h) configs →
  (∃ results h',
      applied h configs results h'
      ∧ length results = length configs
      ∧ observeMultiple configs h = (h', Normal (filter_non_null results))
      ∧ Some <$> filter_non_null results = filter is_Some results
      ∧ (supported h = false → filter_non_null results = [] ∧ h' = h)
      ∧ (supported h = true →
         filter_non_null results = seq (length (observers h)) (length configs)
         ∧ ∀ i c, configs !! i = Some c →
             watcher h' (length (observers h) + i) (destructure (options c))))
  ∧ (∀ A B C h1 h2 h3 hA hC,
       observeScrollAnimations (selector A) (options A) h = (h1, Normal (Some hA)) →
       observeScrollAnimations (selector B) (options B) h1 = (h2, Normal None) →
       observeScrollAnimations (selector C) (options C) h2 = (h3, Normal (Some hC)) →
       observeMultiple [A; B; C] h = (h3, Normal [hA; hC]))
  ∧ observeMultiple configs h = map_then_filter watch_entry configs h
  ∧ (∀ w A B C h1 h2 h3 hA hC,
       w A h = (h1, Normal (Some hA)) →
       w B h1 = (h2, Normal None) →
       w C h2 = (h3, Normal (Some hC)) →
       map_then_filter w [A; B; C] h = (h3, Normal [hA; hC]))
  ∧ (∀ w cs1 c cs2 rs h1,
       array_map w cs1 h = (h1, Normal rs) →
       w c h1 = (h1, Normal None) →
       map_then_filter w (cs1 ++ c :: cs2) h = map_then_filter w (cs1 ++ cs2) h).
Proof.
  intros Hpre.
  assert (∀ w A B C h1 h2 h3 hA hC,
       w A h = (h1, Normal (Some hA)) →
       w B h1 = (h2, Normal None) →
       w C h2 = (h3, Normal (Some hC)) →
       map_then_filter w [A; B; C] h = (h3, Normal [hA; hC])) as Habc.
  { intros w A B C h1 h2 h3 hA hC HA HB HC.
    rewrite map_then_filter_unfold, array_map_cons, HA, array_map_cons, HB,
      array_map_cons, HC. done. }
  split; [| split; [exact (Habc watch_entry) |]; split; [done |];
            split; [exact Habc |]].
  - assert (∃ results h', applied h configs results h'
      ∧ (supported h = false → filter_non_null results = [] ∧ h' = h)
      ∧ (supported h = true →
         filter_non_null results = seq (length (observers h)) (length configs)
         ∧ ∀ i c, configs !! i = Some c →
             watcher h' (length (observers h) + i) (destructure (options c))))
      as (results & h' & Happ & Hun & Hsup).
    { destruct (supported h) eqn:Hs.
      - destruct Hpre as [?|Hall]; [done |].
        destruct (applied_supported h configs Hs Hall) as (h' & Happ & _ & Hw).
        eexists _, h'. split; [exact Happ |]. split; [done |].
        intros _. split; [apply filter_non_null_all_some | exact Hw].
      - eexists _, h. split; [by apply applied_unsupported |].
        split; [| done]. intros _. split; [apply filter_non_null_all_none | done]. }
    exists results, h'. split; [done |].
    split; [by apply applied_length in Happ |].
    split; [| split; [apply filter_non_null_stable | by split]].
    apply applied_array_map in Happ.
    by rewrite observeMultiple_unfold, Happ.
  - intros w cs1 c cs2 rs h1 Hmap Hnull.
    rewrite !map_then_filter_unfold, !array_map_app, Hmap, array_map_cons, Hnull.
    destruct (array_map w cs2 h1) as [h3 [rs2|e]]; [| done].
    unfold filter_non_null. by rewrite !omap_app.
Qed.

Lemma observeMultiple_maps_then_filters_witness :
  Forall (valid_entry browser) two_entries
  ∧ (∃ results h',
      applied browser two_entries results h'
      ∧ observeMultiple two_entries browser = (h', Normal (filter_non_null results))
      ∧ filter_non_null results = [0; 1]
      ∧ watcher h' 1 (destructure (Some shown_only)))
  ∧ (map_then_filter (unsupported_for ".absent") three_entries browser).2
    = Normal [0; 1].
Proof.
  assert (Forall (valid_entry browser) two_entries) as Hall
    by (repeat constructor).
  split; [exact Hall |].
  destruct (observeMultiple_maps_then_filters browser two_entries)
    as (Hmain & _ & _ & Habc & _); [right; exact Hall |].
  split.
  - destruct Hmain as (results & h' & Happ & _ & Hrun & _ & _ & Hsup).
    destruct Hsup as [Hseq Hw]; [reflexivity |].
    exists results, h'. repeat split;
      [exact Happ | exact Hrun | exact Hseq | exact (Hw 1 _ eq_refl)].
  - set (w := unsupported_for ".absent").
    set (A := cfg ".fade"). set (B := cfg ".absent").
    set (C := {| selector := ".fade"; options := Some shown_only |}).
    set (h1 := (w A browser).1). set (h2 := (w B h1).1). set (h3 := (w C h2).1).
    assert (map_then_filter w [A; B; C] browser = (h3, Normal [0; 1])) as Hrun.
    { apply (Habc w A B C h1 h2 h3 0 1); reflexivity. }
    unfold three_entries. fold A B C. by rewrite Hrun.
Defined.

(** * Further properties of the module *)

(** ** The callback as an operation on the host *)

Lemma effective_hits_ext c es es' :
  (∀ el, el ∈ hit_targets es ↔ el ∈ hit_targets es') →
  ∀ el, el ∈ effective_hits c es ↔ el ∈ effective_hits c es'.
Proof. intros Hsame el. rewrite !elem_of_effective_hits, Hsame. done. Qed.

(** X2: a batch acts on class lists and registrations only through the set
    of targets of its intersecting entries.  Two batches with the same such
    set (reordered entries, repeated entries, added non-intersecting ones)
    leave every element with the same class list and leave the same
    observers. *)
Theorem callback_depends_on_hit_targets c es es' h :
  (∀ el, el ∈ hit_targets es ↔ el ∈ hit_targets es') →
  (∀ el, classList_of (callback c es h).1 el = classList_of (callback c es' h).1 el)
  ∧ observers (callback c es h).1 = observers (callback c es' h).1.
Proof.
  intros Hsame. pose proof (effective_hits_ext c es es' Hsame) as Heff. split.
  - intros el. rewrite !callback_classList_of_any. apply decide_ext, Heff.
  - rewrite !callback_observers_any. destruct (cap_once c); [| done].
    apply list_alter_ext; [| done]. intros ob _. by apply strike_ext.
Qed.

Lemma callback_depends_on_hit_targets_witness :
  let h1 := (observeScrollAnimations ".fade" None browser).1 in
  let c := closure_of defaults 0 in
  (∀ el, el ∈ hit_targets [hit 2; miss 1; hit 1; hit 2] ↔ el ∈ hit_targets [hit 1; hit 2])
  ∧ observers (callback c [hit 2; miss 1; hit 1; hit 2] h1).1
    = observers (callback c [hit 1; hit 2] h1).1.
Proof.
  intros h1 c.
  assert (∀ el, el ∈ hit_targets [hit 2; miss 1; hit 1; hit 2]
                ↔ el ∈ hit_targets [hit 1; hit 2]) as Hsame.
  { intros el. change (el ∈ [2; 1; 2] ↔ el ∈ [1; 2]).
    rewrite !elem_of_cons. pose proof (not_elem_of_nil el). tauto. }
  split; [exact Hsame |].
  apply (callback_depends_on_hit_targets c _ _ h1 Hsame).
Defined.

(** X3: replaying a batch changes nothing but the call log: after the
    callback has processed a batch, processing the same batch again leaves
    every class list and every observer as they are. *)
Theorem callback_replay_idempotent c es h :
  classLists (callback c es (callback c es h).1).1 = classLists (callback c es h).1
  ∧ observers (callback c es (callback c es h).1).1 = observers (callback c es h).1.
Proof.
  split.
  - destruct (token_error (cap_visibleClass c)) as [x|] eqn:Hx.
    + apply (callback_invalid_state c es _ x Hx).
    + apply callback_classLists; [done |]. intros e He Hi.
      rewrite (callback_classList_of c Hx), decide_True; [apply token_add_elem |].
      apply elem_of_hit_targets. eauto.
  - rewrite (callback_observers_any c es (callback c es h).1), callback_observers_any.
    destruct (cap_once c); [| done].
    rewrite list_alter_alter_eq. apply list_alter_ext; [| done].
    intros ob _. cbn. rewrite strike_strike. apply strike_ext.
    intros x. rewrite elem_of_app. tauto.
Qed.

(** X4: the callbacks of any two watchers commute on the document and on
    the registrations: whichever runs first, every element ends with the
    same classes (as a set) and the observers are the same.  When both
    classes are valid class tokens, an element reported intersecting to
    both carries both classes. *)
Theorem callbacks_commute c1 c2 es1 es2 h :
  (∀ el cls,
     cls ∈ classList_of (callback c2 es2 (callback c1 es1 h).1).1 el
     ↔ cls ∈ classList_of (callback c1 es1 (callback c2 es2 h).1).1 el)
  ∧ observers (callback c2 es2 (callback c1 es1 h).1).1
    = observers (callback c1 es1 (callback c2 es2 h).1).1
  ∧ (token_error (cap_visibleClass c1) = None →
     token_error (cap_visibleClass c2) = None →
     ∀ el, el ∈ hit_targets es1 → el ∈ hit_targets es2 →
       cap_visibleClass c1 ∈ classList_of (callback c2 es2 (callback c1 es1 h).1).1 el
       ∧ cap_visibleClass c2 ∈ classList_of (callback c2 es2 (callback c1 es1 h).1).1 el).
Proof.
  split; [| split].
  - intros el cls. rewrite !callback_classList_of_any.
    repeat case_decide; rewrite ?elem_of_token_add; tauto.
  - rewrite !callback_observers_any.
    destruct (cap_once c1), (cap_once c2); try done.
    destruct (decide (cap_observer c1 = cap_observer c2)) as [->|Hne].
    + rewrite !list_alter_alter_eq. apply list_alter_ext; [| done].
      intros ob _. cbn. rewrite !strike_strike. apply strike_ext.
      intros x. rewrite !elem_of_app. tauto.
    + by rewrite list_alter_alter_ne.
  - intros Hv1 Hv2 el H1 H2.
    rewrite (callback_classList_of c2 Hv2), (callback_classList_of c1 Hv1).
    rewrite !decide_True by done.
    rewrite !elem_of_token_add. split; [right; left | left]; done.
Qed.

Lemma callbacks_commute_witness :
  let h2 := (observeMultiple two_entries after_first_tick).1 in
  let c1 := closure_of defaults 1 in
  let c2 := closure_of (destructure (Some shown_only)) 2 in
  token_error (cap_visibleClass c1) = None ∧ token_error (cap_visibleClass c2) = None
  ∧ 1 ∈ hit_targets [hit 1] ∧ 1 ∈ hit_targets [hit 1; miss 2]
  ∧ "visible" ∈ classList_of (callback c2 [hit 1; miss 2] (callback c1 [hit 1] h2).1).1 1
  ∧ "shown" ∈ classList_of (callback c2 [hit 1; miss 2] (callback c1 [hit 1] h2).1).1 1.
Proof.
  intros h2 c1 c2.
  assert (1 ∈ hit_targets [hit 1]) as H1 by (vm_compute; left).
  assert (1 ∈ hit_targets [hit 1; miss 2]) as H2 by (vm_compute; left).
  split; [reflexivity |]. split; [reflexivity |].
  split; [exact H1 |]. split; [exact H2 |].
  destruct (callbacks_commute c1 c2 [hit 1] [hit 1; miss 2] h2) as (_ & _ & Hboth).
  exact (Hboth eq_refl eq_refl 1 H1 H2).
Defined.

(** X5: a watcher with [once] and a valid class token fires once per
    element.  After a tick has been delivered to it, any further reports
    about elements that were intersecting in that tick are not delivered:
    such a tick leaves the host, call log included, untouched. *)
Theorem once_watcher_fires_once h o b records records' :
  watcher h o b →
  once b = true →
  token_error (visibleClass b) = None →
  Forall (λ r, target r ∈ hit_targets (delivered h o records)) records' →
  notify o records' (notify o records h).1 = ((notify o records h).1, Normal tt).
Proof.
  intros (ob & Ho & Hc & _) Honce Hv Hfired.
  assert (delivered (notify o records h).1 o records' = []) as Hnone.
  { apply filter_none. intros r Hr.
    pose proof (proj1 (Forall_forall _ _) Hfired r Hr) as Hhit. cbn in Hhit.
    unfold notify. rewrite Ho.
    destruct (delivered h o records) as [|e es] eqn:Hd;
      [by apply elem_of_nil in Hhit |].
    rewrite callback_targets_of_any, Hc, decide_True by done.
    rewrite list_elem_of_filter, elem_of_effective_hits. cbn. tauto. }
  unfold notify at 1. rewrite Hnone. by case_match.
Qed.

Lemma once_watcher_fires_once_witness :
  let h1 := (observeScrollAnimations ".fade" None browser).1 in
  watcher h1 0 defaults
  ∧ token_error (visibleClass defaults) = None
  ∧ notify 0 [hit 1; miss 1] (notify 0 [hit 1; miss 2] h1).1
    = ((notify 0 [hit 1; miss 2] h1).1, Normal tt).
Proof.
  intros h1.
  assert (watcher h1 0 defaults) as Hw.
  { eexists. split; [reflexivity |]. split; reflexivity. }
  split; [exact Hw |]. split; [reflexivity |].
  apply (once_watcher_fires_once h1 0 defaults [hit 1; miss 2] [hit 1; miss 1] Hw);
    [reflexivity | reflexivity |].
  assert (1 ∈ hit_targets (delivered h1 0 [hit 1; miss 2])) as Hin
    by (vm_compute; left).
  repeat constructor; exact Hin.
Defined.

(** X12: a class that is not a valid token (empty, or with whitespace)
    disables the watcher.  A batch then stops at its first intersecting
    entry, where [classList.add] raises: the batch raises that condition,
    the only call issued is that one [classList.add], no class list and no
    observer changes (nothing is unobserved, even with [once]), and the
    entries after it are not processed.  A batch without intersecting
    entries returns as usual. *)
Theorem invalid_class_token_aborts_batch c entries h x :
  token_error (cap_visibleClass c) = Some x →
  classLists (callback c entries h).1 = classLists h
  ∧ observers (callback c entries h).1 = observers h
  ∧ issued h (callback c entries h).1
    = (λ el, CallClassListAdd el (cap_visibleClass c)) <$> take 1 (hit_targets entries)
  ∧ (callback c entries h).2
    = if decide (hit_targets entries = []) then Normal tt else Throw x.
Proof.
  intros Hx. destruct (callback_invalid_state c entries h x Hx) as [Hcl Hobs].
  split; [done |]. split; [done |].
  split; [rewrite issued_callback; unfold batch_calls; by rewrite Hx |].
  rewrite (callback_invalid c entries h x Hx).
  by destruct (hit_targets entries).
Qed.

Lemma invalid_class_token_aborts_batch_witness :
  let h1 := (observeScrollAnimations ".fade" (Some spaced_class) browser).1 in
  let c := closure_of (destructure (Some spaced_class)) 0 in
  token_error (cap_visibleClass c) = Some (InvalidCharacterError "a b")
  ∧ observers (callback c [miss 2; hit 1; hit 2] h1).1 = observers h1
  ∧ issued h1 (callback c [miss 2; hit 1; hit 2] h1).1 = [CallClassListAdd 1 "a b"]
  ∧ (callback c [miss 2; hit 1; hit 2] h1).2 = Throw (InvalidCharacterError "a b").
Proof.
  intros h1 c. split; [reflexivity |].
  destruct (invalid_class_token_aborts_batch c [miss 2; hit 1; hit 2] h1
              (InvalidCharacterError "a b")) as (_ & Hobs & Hcalls & Hraise);
    [reflexivity |].
  split; [exact Hobs |]. split; [exact Hcalls | exact Hraise].
Defined.

(** ** One call of the watcher *)

(** X6: a call of [observeScrollAnimations] itself never touches the
    document's class lists and never alters an observer that exists already:
    the observers afterwards are the old ones followed by at most one new
    one, and the call issues no [classList.add] and no [unobserve]. *)
Theorem watch_call_frame sel opts h :
  classLists (observeScrollAnimations sel opts h).1 = classLists h
  ∧ (∃ new, observers (observeScrollAnimations sel opts h).1 = observers h ++ new
            ∧ (length new ≤ 1)%nat)
  ∧ (∀ o el, CallUnobserve o el ∉ issued h (observeScrollAnimations sel opts h).1)
  ∧ (∀ el cls, CallClassListAdd el cls ∉ issued h (observeScrollAnimations sel opts h).1).
Proof.
  assert (∀ b els (call : Call),
    call ∈ issued h (watched h sel b els) →
    (∀ o el, call ≠ CallUnobserve o el) ∧ (∀ el cls, call ≠ CallClassListAdd el cls))
    as Hlog.
  { intros b els call. rewrite issued_watched, !elem_of_cons, list_elem_of_fmap.
    intros [->|[->|(el' & -> & _)]]; done. }
  watch_cases sel opts h Hs Hinit Hsel Heq; rewrite Heq; cbn [fst].
  - split; [done |].
    split; [exists []; split; [by rewrite app_nil_r | cbn; lia] |].
    rewrite issued_refl. split; intros; apply not_elem_of_nil.
  - split; [done |].
    split; [exists []; split; [by rewrite app_nil_r | cbn; lia] |].
    rewrite issued_log. split; intros; by intros ?%list_elem_of_singleton.
  - split; [done |]. split; [eexists; split; [reflexivity | cbn; lia] |].
    split; intros ? ? Hin; apply Hlog in Hin as [Hu Ha];
      [by eapply Hu | by eapply Ha].
  - split; [done |]. split; [eexists; split; [reflexivity | cbn; lia] |].
    split; intros ? ? Hin; apply Hlog in Hin as [Hu Ha];
      [by eapply Hu | by eapply Ha].
Qed.

(** X7: the observer is constructed before the selector is evaluated.  When
    the options are accepted by the constructor and the selector is
    rejected, in a supported environment, the call has issued exactly the
    construction and the query; it leaves behind one new observer,
    configured but without any target, that no caller receives; class lists
    are untouched. *)
Theorem rejected_selector_leaves_idle_observer sel opts h e :
  supported h = true →
  init_error h (init_of (destructure opts)) = None →
  selector_engine h (classLists h) sel = Throw e →
  issued h (observeScrollAnimations sel opts h).1
  = [CallNew (length (observers h)) (init_of (destructure opts));
     CallQuerySelectorAll sel]
  ∧ observers (observeScrollAnimations sel opts h).1
    = observers h ++
      [{| io_init := init_of (destructure opts);
          io_callback := closure_of (destructure opts) (length (observers h));
          io_targets := [] |}]
  ∧ classLists (observeScrollAnimations sel opts h).1 = classLists h.
Proof.
  intros Hs Hinit Hsel.
  rewrite (observeScrollAnimations_malformed _ _ _ e) by done.
  cbn [fst]. by rewrite issued_watched.
Qed.

Lemma rejected_selector_leaves_idle_observer_witness :
  supported browser = true
  ∧ init_error browser (init_of (destructure None)) = None
  ∧ selector_engine browser (classLists browser) "[" = Throw (SyntaxError "[")
  ∧ issued browser (observeScrollAnimations "[" None browser).1
    = [CallNew 0 (init_of defaults); CallQuerySelectorAll "["].
Proof.
  split; [reflexivity |]. split; [reflexivity |]. split; [reflexivity |].
  apply (rejected_selector_leaves_idle_observer "[" None browser (SyntaxError "["));
    reflexivity.
Defined.

(** X13: options the constructor rejects make the call raise before the
    selector is looked at.  In a supported environment the call then ends
    with the constructor's condition whatever the selector is (also one the
    engine would reject), the only call issued is the construction that
    raised, so nothing is queried or observed, and no observer and no class
    list changes. *)
Theorem rejected_options_raise_before_query sel opts h x :
  supported h = true →
  init_error h (init_of (destructure opts)) = Some x →
  (observeScrollAnimations sel opts h).2 = Throw x
  ∧ issued h (observeScrollAnimations sel opts h).1
    = [CallNewRaised (init_of (destructure opts))]
  ∧ observers (observeScrollAnimations sel opts h).1 = observers h
  ∧ classLists (observeScrollAnimations sel opts h).1 = classLists h.
Proof.
  intros Hs Hx. rewrite (observeScrollAnimations_rejected _ _ _ x) by done.
  cbn [fst snd]. by rewrite issued_log.
Qed.

Lemma rejected_options_raise_before_query_witness :
  supported browser = true
  ∧ init_error browser (init_of (destructure (Some out_of_range))) = Some RangeError
  ∧ (observeScrollAnimations "[" (Some out_of_range) browser).2 = Throw RangeError
  ∧ observers (observeScrollAnimations "[" (Some out_of_range) browser).1 = [].
Proof.
  split; [reflexivity |]. split; [reflexivity |].
  destruct (rejected_options_raise_before_query "[" (Some out_of_range) browser RangeError)
    as (Hraise & _ & Hobs & _); [reflexivity | reflexivity |].
  split; [exact Hraise | exact Hobs].
Defined.

(** X8: the elements are matched once, at call time.  Whatever calls and
    ticks follow, the targets of a returned handle stay among the elements
    the selector matched when the handle was made: the module never
    registers anything with it later. *)
Theorem targets_fixed_at_call_time sel opts h0 h1 o els h el :
  observeScrollAnimations sel opts h0 = (h1, Normal (Some o)) →
  selector_engine h0 (classLists h0) sel = Normal els →
  rtc step h1 h →
  el ∈ targets_of h o → el ∈ els.
Proof.
  intros Hrun Hsel Hsteps Hin.
  destruct (returned_handle_inv _ _ _ _ _ Hrun) as (els' & _ & _ & Hsel' & -> & ->).
  rewrite Hsel in Hsel'. injection Hsel' as <-.
  apply (targets_of_watched h0 sel (destructure opts)).
  apply (targets_shrink _ h); [by apply steps_observers_shrink | | done].
  destruct (watched_watcher h0 sel (destructure opts) els) as (ob & Ho & _).
  by eexists.
Qed.

Lemma targets_fixed_at_call_time_witness :
  let h1 := (observeScrollAnimations ".fade" None browser).1 in
  let h := (observeScrollAnimations ".absent" None (notify 0 [hit 1] h1).1).1 in
  rtc step h1 h ∧ 2 ∈ targets_of h 0 ∧ 2 ∈ [1; 2].
Proof.
  intros h1 h.
  assert (rtc step h1 h) as Hsteps.
  { eapply rtc_l; [apply (step_notify 0 [hit 1]) |].
    apply rtc_once, (step_watch ".absent" None). }
  assert (2 ∈ targets_of h 0) as Hin by (vm_compute; left).
  split; [exact Hsteps |]. split; [exact Hin |].
  apply (targets_fixed_at_call_time ".fade" None browser h1 0 [1; 2] h 2);
    [reflexivity | reflexivity | exact Hsteps | exact Hin].
Defined.

(** ** The batch registrar as a composition *)

(** X9: [observeMultiple] composes over concatenation.  Registering
    [cs1 ++ cs2] is registering [cs1] and then, on the host that leaves,
    [cs2], the handles being those of the first followed by those of the
    second; if either part raises, so does the whole, on the same host.
    A single entry gives that entry's handle, or nothing for [null]. *)
Theorem observeMultiple_app cs1 cs2 h :
  observeMultiple (cs1 ++ cs2) h =
  match observeMultiple cs1 h with
  | (h1, Normal hs1) =>
      match observeMultiple cs2 h1 with
      | (h2, Normal hs2) => (h2, Normal (hs1 ++ hs2))
      | (h2, Throw e) => (h2, Throw e)
      end
  | (h1, Throw e) => (h1, Throw e)
  end
  ∧ ∀ c, observeMultiple [c] h =
         match observeScrollAnimations (selector c) (options c) h with
         | (h1, Normal (Some o)) => (h1, Normal [o])
         | (h1, Normal None) => (h1, Normal [])
         | (h1, Throw e) => (h1, Throw e)
         end.
Proof.
  split.
  - rewrite !observeMultiple_unfold, array_map_app.
    destruct (array_map watch_entry cs1 h) as [h1 [rs1|e]]; [| done].
    rewrite observeMultiple_unfold.
    destruct (array_map watch_entry cs2 h1) as [h2 [rs2|e]]; [| done].
    unfold filter_non_null. by rewrite omap_app.
  - intros c. rewrite observeMultiple_unfold, array_map_cons.
    unfold watch_entry at 1.
    by destruct (observeScrollAnimations (selector c) (options c) h)
      as [h1 [[o|]|e]].
Qed.

(** X10: whenever [observeMultiple] returns, the handles are pairwise
    distinct observers that did not exist before the call and exist after
    it, and there are either none of them (unsupported environment) or
    exactly one per entry. *)
Theorem observeMultiple_handles_fresh_distinct configs h h' handles :
  observeMultiple configs h = (h', Normal handles) →
  NoDup handles
  ∧ (∀ o, o ∈ handles →
          observers h !! o = None ∧ is_Some (observers h' !! o))
  ∧ (handles = [] ∨ length handles = length configs).
Proof.
  rewrite observeMultiple_unfold.
  destruct (array_map watch_entry configs h) as [h2 [rs|e]] eqn:Hmap; [| done].
  intros [= -> <-].
  pose proof (proj2 (applied_array_map _ _ _ _) Hmap) as Happ.
  destruct (supported h) eqn:Hs.
  - destruct (applied_inv _ _ _ _ Happ) as [?|Hall]; [congruence |].
    destruct (applied_supported h configs Hs Hall) as (h3 & Happ3 & _ & Hw).
    apply applied_array_map in Happ3. rewrite Hmap in Happ3.
    injection Happ3 as <- ->. rewrite filter_non_null_all_some.
    split; [apply NoDup_seq |]. split; [| right; apply length_seq].
    intros o [Hlo Hhi]%elem_of_seq. split; [by apply lookup_ge_None |].
    destruct (lookup_lt_is_Some_2 configs (o - length (observers h))) as [c Hc];
      [lia |].
    destruct (Hw _ _ Hc) as (ob & Ho & _).
    replace (length (observers h) + (o - length (observers h))) with o in Ho by lia.
    by eexists.
  - pose proof (applied_unsupported h configs Hs) as Happ0.
    apply applied_array_map in Happ0. rewrite Hmap in Happ0.
    injection Happ0 as _ ->. rewrite filter_non_null_all_none.
    split; [constructor |]. split; [| by left].
    by intros o ?%elem_of_nil.
Qed.

Lemma observeMultiple_handles_fresh_distinct_witness :
  observeMultiple two_entries after_first_tick
  = ((observeMultiple two_entries after_first_tick).1, Normal [1; 2])
  ∧ NoDup [1; 2]
  ∧ observers after_first_tick !! 2 = None.
Proof.
  assert (observeMultiple two_entries after_first_tick
          = ((observeMultiple two_entries after_first_tick).1, Normal [1; 2]))
    as Hrun by reflexivity.
  split; [exact Hrun |].
  destruct (observeMultiple_handles_fresh_distinct _ _ _ _ Hrun) as (Hnd & Hfresh & _).
  split; [exact Hnd |].
  apply (Hfresh 2). right; left.
Defined.

Lemma init_error_scope h h' init :
  rootMargin_parses h' = rootMargin_parses h →
  init_error h' init = init_error h init.
Proof. intros Hp. unfold init_error. by rewrite Hp. Qed.

(** X11: there is no rollback.  When, in a supported environment, the
    entries before a rejected selector are all valid and the rejected
    entry's options are accepted by the constructor, [observeMultiple]
    raises the selector's condition, the watchers of those earlier entries
    stay in place with their configurations, one further observer was
    constructed for the rejected entry, and none for the entries after it. *)
Theorem observeMultiple_raise_keeps_earlier_watchers cs1 c cs2 h e :
  supported h = true →
  Forall (valid_entry h) cs1 →
  init_error h (init_of (destructure (options c))) = None →
  selector_engine h (classLists h) (selector c) = Throw e →
  (observeMultiple (cs1 ++ c :: cs2) h).2 = Throw e
  ∧ (∀ i c', cs1 !! i = Some c' →
       watcher (observeMultiple (cs1 ++ c :: cs2) h).1
               (length (observers h) + i) (destructure (options c')))
  ∧ length (observers (observeMultiple (cs1 ++ c :: cs2) h).1)
    = length (observers h) + length cs1 + 1.
Proof.
  intros Hs Hall Hinit Hsel.
  destruct (applied_supported h cs1 Hs Hall) as (h1 & Happ & _ & Hw).
  destruct (applied_scope _ _ _ _ Happ) as (Hcl & Heng & Hpar & Hs1).
  destruct (applied_observers _ _ _ _ Happ) as (new & Hobs & Hlen).
  rewrite Hs in Hs1, Hlen.
  pose proof (proj1 (applied_array_map _ _ _ _) Happ) as Hmap.
  assert (observeMultiple (cs1 ++ c :: cs2) h
          = (watched h1 (selector c) (destructure (options c)) [], Throw e)) as Hrun.
  { rewrite observeMultiple_unfold, array_map_app, Hmap, array_map_cons.
    unfold watch_entry at 1.
    rewrite (observeScrollAnimations_malformed _ _ h1 e);
      [done | done | by rewrite (init_error_scope h) | by rewrite Heng, Hcl]. }
  rewrite Hrun. cbn [fst snd]. split; [done |]. split.
  - intros i c' Hi.
    eapply watcher_shrink; [exact (watched_observers_shrink _ _ _ _) | by apply Hw].
  - cbn. rewrite Hobs, !length_app, Hlen. cbn. lia.
Qed.

Lemma observeMultiple_raise_keeps_earlier_watchers_witness :
  supported browser = true
  ∧ Forall (valid_entry browser) [cfg ".fade"]
  ∧ (observeMultiple entries_with_malformed browser).2 = Throw (SyntaxError "[")
  ∧ watcher (observeMultiple entries_with_malformed browser).1 0 defaults
  ∧ length (observers (observeMultiple entries_with_malformed browser).1) = 2.
Proof.
  assert (Forall (valid_entry browser) [cfg ".fade"]) as Hall
    by (repeat constructor).
  split; [reflexivity |]. split; [exact Hall |].
  destruct (observeMultiple_raise_keeps_earlier_watchers
              [cfg ".fade"] (cfg "[") [cfg ".fade"] browser (SyntaxError "["))
    as (Hraise & Hw & Hlen); [reflexivity | exact Hall | reflexivity | reflexivity |].
  split; [exact Hraise |]. split; [exact (Hw 0 _ eq_refl) | exact Hlen].
Defined.
